(** * Photo-Gallery: the photo-set manager and its persistence adapters

    A shallow embedding of the two [PhotoApp] components of the repository
    (the browser-only one of [photo-gallery-web/app/components/PhotoApp.tsx]
    and the server-backed one) and the properties of the specification that
    concern them.

    Conventions of the embedding.
    - A JavaScript string is the list of its UTF-16 code units ([jstring]).
    - A finite Number is held by its exact value, a rational; the only
      arithmetic of the code on Numbers is the division by 1024 of a value
      that is at least 1024, which binary64 performs without rounding.
    - React state is passed explicitly: an event handler maps the state before
      to the state after, an effect maps the storage before to the storage
      after.
    - What the browser supplies (identifiers, the clock, the outcome of a file
      read, the answers of the server) is an explicit argument. *)

From Stdlib Require Import ZArith NArith QArith Qround Qabs Lqa List String Ascii.
From Stdlib Require Import Decimal DecimalFacts DecimalPos DecimalN DecimalZ SpecFloat.
From stdpp Require Import base option list gmap.

Local Open Scope Z_scope.

(** ** JavaScript strings *)

Abbreviation jstring := (list N).

Definition str (s : string) : jstring :=
  map N_of_ascii (list_ascii_of_string s).

(** [String.prototype.startsWith]. *)
Definition startsWith (s p : jstring) : bool :=
  bool_decide (take (length p) s = p).

(** A string in a boolean position: only the empty string is falsy. *)
Definition truthy (s : jstring) : bool :=
  match s with [] => false | _ :: _ => true end.

(** ** Decimal numerals *)

Fixpoint uint_chars (d : Decimal.uint) : jstring :=
  match d with
  | Nil => []
  | D0 d => 48%N :: uint_chars d
  | D1 d => 49%N :: uint_chars d
  | D2 d => 50%N :: uint_chars d
  | D3 d => 51%N :: uint_chars d
  | D4 d => 52%N :: uint_chars d
  | D5 d => 53%N :: uint_chars d
  | D6 d => 54%N :: uint_chars d
  | D7 d => 55%N :: uint_chars d
  | D8 d => 56%N :: uint_chars d
  | D9 d => 57%N :: uint_chars d
  end.

Definition decimal_N (n : N) : jstring := uint_chars (N.to_uint n).

(** The decimal numeral of an integer, as [Number::toString] writes an
    integral Number below 10^21. *)
Definition decimal_Z (z : Z) : jstring :=
  if z <? 0 then 45%N :: decimal_N (Z.abs_N z) else decimal_N (Z.abs_N z).

Definition is_digit (c : N) : Prop := (48 <= c <= 57)%N.

(** ** Numbers *)

Inductive number :=
| NaN
| Infinity (negative : bool)
| Finite (q : Q).


Definition of_int (z : Z) : number := Finite (inject_Z z).

Definition Qlt_bool (a b : Q) : bool := negb (Qle_bool b a).

(** *** [Number::toString] at and above 10^21

    The value is written with the fewest significant digits [s] (at most 17)
    such that [s * 10^(n-k)] still denotes the same binary64 Number, in
    exponent notation. [F64] is the Number value of an integer (round to
    nearest, ties to even). *)

Definition F64 (z : Z) : spec_float := binary_normalize 53 1024 z 0 false.

Definition digits_candidates (z : Z) (k : nat) : list (Z * Z) :=
  let nd := Z.of_nat (length (decimal_Z z)) in
  n ← [nd; nd + 1];
  let p := 10 ^ (n - Z.of_nat k) in
  s ← [z / p; z / p + 1];
  if (10 ^ (Z.of_nat k - 1) <=? s) && (s <? 10 ^ Z.of_nat k)
     && SFeqb (F64 (s * p)) (F64 z)
  then [(s, n)] else [].

(** Of two candidates the one closer to the value; of two equally close
    ones the even one. *)
Definition closer (z : Z) (k : nat) (a b : Z * Z) : Z * Z :=
  let dist c := Z.abs (c.1 * 10 ^ (c.2 - Z.of_nat k) - z) in
  if dist b <? dist a then b
  else if (dist b =? dist a) && Z.even b.1 then b
  else a.

Fixpoint shortest_digits (z : Z) (tries : nat) (k : nat) : option (Z * Z * nat) :=
  match tries with
  | O => None
  | S tries' =>
      match digits_candidates z k with
      | c :: cs => Some (foldr (closer z k) c cs, k)
      | [] => shortest_digits z tries' (S k)
      end
  end.

Definition Number_toString_large (x : Q) : jstring :=
  let z := Qfloor x in
  match shortest_digits z 17 1 with
  | Some (s, n, k) =>
      match decimal_Z s with
      | d :: ds =>
          (d :: (if decide (k = 1%nat) then [] else 46%N :: ds))
            ++ str "e+" ++ decimal_Z (n - 1)
      | [] => []
      end
  | None => decimal_Z z
  end.

(** *** [Number.prototype.toFixed] on a finite Number *)

Definition toFixed (x : Q) (fractionDigits : nat) : jstring :=
  let s := if Qlt_bool x 0 then [45%N] else [] in
  let x := Qabs x in
  if Qle_bool (inject_Z (10 ^ 21)) x then s ++ Number_toString_large x
  else
    let n := Qfloor (x * inject_Z (10 ^ Z.of_nat fractionDigits) + (1 # 2)) in
    let m := decimal_Z n in
    let m :=
      match fractionDigits with
      | O => m
      | S _ =>
          let m :=
            if (length m <=? fractionDigits)%nat
            then replicate (fractionDigits + 1 - length m) 48%N ++ m else m in
          let k := length m in
          take (k - fractionDigits) m ++ 46%N :: drop (k - fractionDigits) m
      end in
    s ++ m.

(** ** The byte-size formatter (the same text in both components) *)

Definition units : list jstring := [str "B"; str "KB"; str "MB"; str "GB"].

(** The [while] loop of [formatBytes]; [fuel] bounds the number of turns and
    is never exhausted (see [while_loop_exit]). *)
Fixpoint while_loop (fuel : nat) (v : Q) (i : nat) : Q * nat :=
  match fuel with
  | O => (v, i)
  | S fuel' =>
      if Qle_bool 1024 v && (i <? length units - 1)%nat
      then while_loop fuel' (v / 1024) (S i)
      else (v, i)
  end.

(** [`${units[i]}`]: an index outside the array prints as "undefined". *)
Definition unit_at (i : nat) : jstring :=
  default (str "undefined") (units !! i).

Definition formatBytes (bytes : number) : jstring :=
  match bytes with
  | NaN | Infinity _ => []                 (* not Number.isFinite(bytes) *)
  | Finite b =>
      let '(v, i) := while_loop (length units) b 0 in
      toFixed v (if decide (i = 0%nat) then 0 else 1) ++ str " " ++ unit_at i
  end.

(** [Number.isSafeInteger]: the integers of magnitude below 2^53, each of
    which is a Number and is written by [Number::toString] with all its
    digits. *)
Definition isSafeInteger (z : Z) : bool := Z.abs z <=? 2 ^ 53 - 1.

(** The integer a Number holds when it is given the integer [z]: [z] itself
    when it is safe, and else the value of the nearest binary64 Number
    ([None] when that is an infinity). *)
Definition Number_value (z : Z) : option Z :=
  if isSafeInteger z then Some z
  else
    match F64 z with
    | S754_finite s m e => Some (cond_Zopp s (Z.pos m) * 2 ^ e)
    | S754_zero _ => Some 0
    | _ => None
    end.

(** [Number::toString] of an integral Number: all the digits of a safe
    integer; from 2^53 on the fewest significant digits that still denote
    the same Number, followed by zeros while the numeral has at most 21
    digits, and in exponent notation from 10^21 on. *)
Definition Number_toString (z : Z) : jstring :=
  if isSafeInteger z then decimal_Z z
  else
    let sign := if z <? 0 then [45%N] else [] in
    match Number_value z with
    | Some x =>
        let x := Z.abs x in
        match shortest_digits x 17 1 with
        | Some (s, n, k) =>
            if n <=? 21
            then sign ++ decimal_Z s ++ replicate (Z.to_nat (n - Z.of_nat k)) 48%N
            else sign ++ Number_toString_large (inject_Z x)
        | None => decimal_Z z
        end
    | None => sign ++ str "Infinity"
    end.


(** ** Exceptions *)

Inductive result (A : Type) :=
| Ok (a : A)
| Throw (message : jstring).
Arguments Ok {A} a.
Arguments Throw {A} message.

(** ** JSON text *)

#[local] Unset Elimination Schemes.
Inductive json :=
| JNull
| JBool (b : bool)
| JNumber (mantissa exponent : Z)        (* mantissa * 10^exponent *)
| JString (s : jstring)
| JArray (items : list json)
| JObject (members : list (jstring * json)).
#[local] Set Elimination Schemes.

(** *** [QuoteJSONString] *)

Definition hex_digit (n : N) : N := (if n <? 10 then 48 + n else 87 + n)%N.

Definition UnicodeEscape (c : N) : jstring :=
  [92; 117; hex_digit (c / 4096 mod 16); hex_digit (c / 256 mod 16);
   hex_digit (c / 16 mod 16); hex_digit (c mod 16)]%N.

Definition is_leading_surrogate (c : N) : bool := ((55296 <=? c) && (c <=? 56319))%N.
Definition is_trailing_surrogate (c : N) : bool := ((56320 <=? c) && (c <=? 57343))%N.

(** The short escapes of the table of QuoteJSONString. *)
Definition short_escape (c : N) : option N :=
  (if c =? 8 then Some 98          (* backspace *)
   else if c =? 9 then Some 116    (* tab *)
   else if c =? 10 then Some 110   (* line feed *)
   else if c =? 12 then Some 102   (* form feed *)
   else if c =? 13 then Some 114   (* carriage return *)
   else if c =? 34 then Some 34    (* quotation mark *)
   else if c =? 92 then Some 92    (* reverse solidus *)
   else None)%N.

Fixpoint quote_chars (s : jstring) : jstring :=
  match s with
  | [] => []
  | c :: s' =>
      match short_escape c with
      | Some e => 92%N :: e :: quote_chars s'
      | None =>
          if (c <? 32)%N then UnicodeEscape c ++ quote_chars s'
          else if is_leading_surrogate c then
            match s' with
            | c2 :: s'' =>
                if is_trailing_surrogate c2 then c :: c2 :: quote_chars s''
                else UnicodeEscape c ++ quote_chars s'
            | [] => UnicodeEscape c
            end
          else if is_trailing_surrogate c then UnicodeEscape c ++ quote_chars s'
          else c :: quote_chars s'
      end
  end.

Definition QuoteJSONString (s : jstring) : jstring :=
  34%N :: quote_chars s ++ [34%N].

(** *** [JSON.parse] *)

Definition is_ws (c : N) : bool :=
  ((c =? 32) || (c =? 9) || (c =? 10) || (c =? 13))%N.

Fixpoint skip_ws (t : jstring) : jstring :=
  match t with
  | c :: t' => if is_ws c then skip_ws t' else t
  | [] => []
  end.

Definition hex_value (c : N) : option N :=
  (if (48 <=? c) && (c <=? 57) then Some (c - 48)
   else if (97 <=? c) && (c <=? 102) then Some (c - 87)
   else if (65 <=? c) && (c <=? 70) then Some (c - 55)
   else None)%N.

(** The character an escape letter stands for. *)
Definition escaped (e : N) : option N :=
  (if e =? 34 then Some 34
   else if e =? 92 then Some 92
   else if e =? 47 then Some 47
   else if e =? 98 then Some 8
   else if e =? 102 then Some 12
   else if e =? 110 then Some 10
   else if e =? 114 then Some 13
   else if e =? 116 then Some 9
   else None)%N.

(** The characters of a string literal, after its opening quote, up to and
    including its closing quote. *)
Fixpoint parse_chars (t : jstring) : option (jstring * jstring) :=
  match t with
  | [] => None
  | c :: t' =>
      if (c =? 34)%N then Some ([], t')
      else if (c =? 92)%N then
        match t' with
        | [] => None
        | e :: t'' =>
            if (e =? 117)%N then
              match t'' with
              | h1 :: h2 :: h3 :: h4 :: t3 =>
                  match hex_value h1, hex_value h2, hex_value h3, hex_value h4 with
                  | Some a, Some b, Some c', Some d =>
                      match parse_chars t3 with
                      | Some (s, r) => Some ((a * 4096 + b * 256 + c' * 16 + d)%N :: s, r)
                      | None => None
                      end
                  | _, _, _, _ => None
                  end
              | _ => None
              end
            else
              match escaped e with
              | Some ch =>
                  match parse_chars t'' with
                  | Some (s, r) => Some (ch :: s, r)
                  | None => None
                  end
              | None => None
              end
        end
      else if (c <? 32)%N then None
      else
        match parse_chars t' with
        | Some (s, r) => Some (c :: s, r)
        | None => None
        end
  end.

Definition digit_cons (c : N) : option (Decimal.uint -> Decimal.uint) :=
  (if c =? 48 then Some D0 else if c =? 49 then Some D1
   else if c =? 50 then Some D2 else if c =? 51 then Some D3
   else if c =? 52 then Some D4 else if c =? 53 then Some D5
   else if c =? 54 then Some D6 else if c =? 55 then Some D7
   else if c =? 56 then Some D8 else if c =? 57 then Some D9
   else None)%N.

(** The longest run of digits at the head of the text. *)
Fixpoint span_digits (t : jstring) : Decimal.uint * jstring :=
  match t with
  | c :: t' =>
      match digit_cons c with
      | Some D => let '(u, r) := span_digits t' in (D u, r)
      | None => (Nil, t)
      end
  | [] => (Nil, [])
  end.

(** An integer part of several digits that starts with a zero. *)
Definition leading_zero (ip : Decimal.uint) : bool :=
  match ip with
  | D0 Nil => false
  | D0 _ => true
  | _ => false
  end.

Definition is_Nil (d : Decimal.uint) : bool :=
  match d with Nil => true | _ => false end.

(** The fraction of a JSON number, when there is one. *)
Definition parse_fraction (t : jstring) : option (Decimal.uint * jstring) :=
  match t with
  | c :: t' =>
      if (c =? 46)%N then
        let '(fp, r) := span_digits t' in
        if is_Nil fp then None else Some (fp, r)
      else Some (Nil, t)
  | [] => Some (Nil, [])
  end.

(** The exponent of a JSON number, when there is one. *)
Definition parse_exponent (t : jstring) : option (Z * jstring) :=
  match t with
  | c :: t' =>
      if ((c =? 101) || (c =? 69))%N then
        let '(negative, t'') :=
          match t' with
          | sg :: t'' =>
              if (sg =? 45)%N then (true, t'')
              else if (sg =? 43)%N then (false, t'') else (false, t')
          | [] => (false, t')
          end in
        let '(ep, r) := span_digits t'' in
        if is_Nil ep then None
        else Some (if negative then - Z.of_uint ep else Z.of_uint ep, r)
      else Some (0, t)
  | [] => Some (0, [])
  end.

(** A JSON number after its sign: an integer part without leading zero, an
    optional fraction and an optional exponent. *)
Definition parse_unsigned (negative : bool) (t : jstring) : option (json * jstring) :=
  let '(ip, r1) := span_digits t in
  if is_Nil ip || leading_zero ip then None
  else
    '(fp, r2) ← parse_fraction r1;
    '(ex, r3) ← parse_exponent r2;
    let m := Z.of_uint (Decimal.app ip fp) in
    Some (JNumber (if negative then - m else m) (ex - Z.of_nat (nb_digits fp)), r3).

(** A JSON number: an optional minus sign and the rest. *)
Definition parse_number (t : jstring) : option (json * jstring) :=
  match t with
  | c :: t' => if (c =? 45)%N then parse_unsigned true t' else parse_unsigned false t
  | [] => None
  end.

Definition parse_literal (t : jstring) : option (json * jstring) :=
  if startsWith t (str "true") then Some (JBool true, drop 4 t)
  else if startsWith t (str "false") then Some (JBool false, drop 5 t)
  else if startsWith t (str "null") then Some (JNull, drop 4 t)
  else parse_number t.

(** A value, the elements of an array after its bracket and the members of an
    object after its brace. [fuel] bounds the depth of the calls. *)
Fixpoint parse_value (fuel : nat) (t : jstring) : option (json * jstring) :=
  match fuel with
  | O => None
  | S fuel =>
      match skip_ws t with
      | [] => None
      | c :: t' =>
          if (c =? 123)%N then
            match skip_ws t' with
            | c' :: r =>
                if (c' =? 125)%N then Some (JObject [], r)
                else '(ms, r) ← parse_members fuel t'; Some (JObject ms, r)
            | [] => None
            end
          else if (c =? 91)%N then
            match skip_ws t' with
            | c' :: r =>
                if (c' =? 93)%N then Some (JArray [], r)
                else '(vs, r) ← parse_elements fuel t'; Some (JArray vs, r)
            | [] => None
            end
          else if (c =? 34)%N then
            '(s, r) ← parse_chars t'; Some (JString s, r)
          else parse_literal (c :: t')
      end
  end
with parse_elements (fuel : nat) (t : jstring) : option (list json * jstring) :=
  match fuel with
  | O => None
  | S fuel =>
      '(v, r) ← parse_value fuel t;
      match skip_ws r with
      | c :: r' =>
          if (c =? 44)%N then '(vs, r'') ← parse_elements fuel r'; Some (v :: vs, r'')
          else if (c =? 93)%N then Some ([v], r')
          else None
      | [] => None
      end
  end
with parse_members (fuel : nat) (t : jstring) : option (list (jstring * json) * jstring) :=
  match fuel with
  | O => None
  | S fuel =>
      match skip_ws t with
      | c :: t1 =>
          if (c =? 34)%N then
            '(k, r) ← parse_chars t1;
            match skip_ws r with
            | c2 :: r2 =>
                if (c2 =? 58)%N then
                  '(v, r3) ← parse_value fuel r2;
                  match skip_ws r3 with
                  | c3 :: r4 =>
                      if (c3 =? 44)%N then
                        '(ms, r5) ← parse_members fuel r4; Some ((k, v) :: ms, r5)
                      else if (c3 =? 125)%N then Some ([(k, v)], r4)
                      else None
                  | [] => None
                  end
                else None
            | [] => None
            end
          else None
      | [] => None
      end
  end.

(** [JSON.parse]: [None] stands for the SyntaxError. A call of the parser goes
    at most two levels deeper for each character it has read, so this fuel
    is never exhausted (see [JSON_parse_fuel]). *)
Definition JSON_parse (text : jstring) : option json :=
  match parse_value (2 * length text + 2) text with
  | Some (v, r) => match skip_ws r with [] => Some v | _ :: _ => None end
  | None => None
  end.

Definition Array_isArray (v : json) : bool :=
  match v with JArray _ => true | _ => false end.

(** The integral value of a JSON number, when it is integral. *)
Definition integral (mantissa exponent : Z) : option Z :=
  if 0 <=? exponent then Some (mantissa * 10 ^ exponent)
  else if mantissa mod 10 ^ (- exponent) =? 0 then Some (mantissa / 10 ^ (- exponent))
  else None.

(** ** Files *)

(** A [File] of a [FileList]: its name, declared media type and byte size, and
    what [FileReader.readAsDataURL] delivers for it ([onload] with the data
    URL, or [onerror]). *)
Record File := {
  file_name : jstring;
  file_type : jstring;
  file_size : Z;
  file_dataURL : result jstring;
}.

(** [Array.from(fileList ?? [])]. *)
Definition Array_from (fileList : option (list File)) : list File :=
  default [] fileList.

(** ** [localStorage] *)

(** The storage of the origin: closed to the page (every access throws) or a
    map from keys to strings under a quota of code units. *)
Inductive Storage :=
| Blocked
| Open (items : gmap jstring jstring) (quota : nat).

Definition storage_used (items : gmap jstring jstring) : nat :=
  map_fold (fun k v n => (length k + length v + n)%nat) 0%nat items.

Definition getItem (ls : Storage) (key : jstring) : result (option jstring) :=
  match ls with
  | Blocked => Throw (str "SecurityError")
  | Open items _ => Ok (items !! key)
  end.

Definition setItem (ls : Storage) (key value : jstring) : result Storage :=
  match ls with
  | Blocked => Throw (str "SecurityError")
  | Open items quota =>
      if (storage_used (<[key := value]> items) <=? quota)%nat
      then Ok (Open (<[key := value]> items) quota)
      else Throw (str "QuotaExceededError")
  end.

Definition removeItem (ls : Storage) (key : jstring) : result Storage :=
  match ls with
  | Blocked => Throw (str "SecurityError")
  | Open items quota => Ok (Open (delete key items) quota)
  end.

(** ** The browser-only component
    ([photo-gallery-web/app/components/PhotoApp.tsx]) *)

Module Local.

Record PhotoItem := {
  id : jstring;
  name : jstring;
  type : jstring;
  size : Z;
  createdAt : Z;
  dataUrl : jstring;
}.

Definition STORAGE_KEY : jstring := str "photo_gallery_v1".
Definition MAX_STORED_IMAGES : nat := 30.
Definition MAX_IMAGE_BYTES : Z := 4 * 1024 * 1024.

(** The state of the component: [useState] of [photos], [activeId] and
    [error] ([isDropping] only styles the drop zone). *)
Record State := {
  photos : list PhotoItem;
  activeId : option jstring;
  error : option jstring;
}.

Definition initial : State := {| photos := []; activeId := None; error := None |}.

Definition setPhotos (ps : list PhotoItem) (st : State) : State :=
  {| photos := ps; activeId := activeId st; error := error st |}.

Definition setActiveId (a : option jstring) (st : State) : State :=
  {| photos := photos st; activeId := a; error := error st |}.

Definition setError (e : option jstring) (st : State) : State :=
  {| photos := photos st; activeId := activeId st; error := e |}.

(** *** [JSON.stringify(photos)] *)

Definition member (key : string) (value : jstring) : jstring :=
  QuoteJSONString (str key) ++ str ":" ++ value.

(** A Number member: its [Number::toString] when it is finite, and else
    [null]. *)
Definition SerializeJSONNumber (z : Z) : jstring :=
  match Number_value z with
  | Some _ => Number_toString z
  | None => str "null"
  end.

Definition SerializeJSONObject (p : PhotoItem) : jstring :=
  str "{" ++ member "id" (QuoteJSONString (id p))
    ++ str "," ++ member "name" (QuoteJSONString (name p))
    ++ str "," ++ member "type" (QuoteJSONString (type p))
    ++ str "," ++ member "size" (SerializeJSONNumber (size p))
    ++ str "," ++ member "createdAt" (SerializeJSONNumber (createdAt p))
    ++ str "," ++ member "dataUrl" (QuoteJSONString (dataUrl p))
    ++ str "}".

Fixpoint elements_text (ps : list PhotoItem) : jstring :=
  match ps with
  | [] => []
  | [p] => SerializeJSONObject p
  | p :: ps' => SerializeJSONObject p ++ str "," ++ elements_text ps'
  end.

Definition JSON_stringify (ps : list PhotoItem) : jstring :=
  str "[" ++ elements_text ps ++ str "]".

(** *** The state at run time

    TypeScript's types are erased when the component runs: [JSON.parse]
    returns [any], and the load effect passes an array it returns to
    [setPhotos] without looking at its elements. [Runtime] is the state with
    the photos as the values they are at run time; [runtime] gives the
    values of the records of a [State], which are the objects [addFiles]
    builds, with their six members in the order of its object literal. *)

Record Runtime := {
  values : list json;
  selected : option jstring;
  message : option jstring;
}.

Definition PhotoItem_value (p : PhotoItem) : json :=
  JObject [(str "id", JString (id p)); (str "name", JString (name p));
           (str "type", JString (type p)); (str "size", JNumber (size p) 0);
           (str "createdAt", JNumber (createdAt p) 0);
           (str "dataUrl", JString (dataUrl p))].

Definition runtime (st : State) : Runtime :=
  {| values := PhotoItem_value <$> photos st; selected := activeId st;
     message := error st |}.

(** The elements of a parsed array. *)
Definition elements (parsed : json) : list json :=
  match parsed with JArray items => items | _ => [] end.

(** *** The two effects *)

(** The load effect (runs once, on mount): it calls [setPhotos] with whatever
    array the entry parses to, and nothing else. *)
Definition loadEffect (ls : Storage) (st : State) : Runtime :=
  match getItem ls STORAGE_KEY with
  | Throw _ => runtime st
  | Ok None => runtime st
  | Ok (Some raw) =>
      if truthy raw then
        match JSON_parse raw with
        | None => runtime st
        | Some parsed =>
            if Array_isArray parsed
            then {| values := elements parsed; selected := activeId st;
                    message := error st |}
            else runtime st
        end
      else runtime st
  end.

(** *** The run-time state at the declared type

    The handlers below are those of the component at its declared types, on
    records with integral sizes and timestamps. [typed] reads a run-time
    state as a [State]: each element has to be an object with the six
    members of a [PhotoItem] in the order the component writes them (the
    order of its members is part of an object: [JSON.stringify] writes them
    in it, so that a record, which has none, stands for the objects in that
    order only), with strings where the type has [string] and an integral
    number where it has [number]; the Number is the binary64 value nearest
    to the numeral. [None]: the array holds something that no [State]
    stands for. *)

Definition asPhotoItem (v : json) : option PhotoItem :=
  match v with
  | JObject [(k1, JString i); (k2, JString n); (k3, JString t);
             (k4, JNumber sm se); (k5, JNumber cm ce); (k6, JString d)] =>
      if bool_decide ([k1; k2; k3; k4; k5; k6]
                      = [str "id"; str "name"; str "type"; str "size";
                         str "createdAt"; str "dataUrl"])
      then
        sz ← integral sm se ≫= Number_value;
        ca ← integral cm ce ≫= Number_value;
        Some {| id := i; name := n; type := t; size := sz; createdAt := ca;
                dataUrl := d |}
      else None
  | _ => None
  end.

Definition typed (r : Runtime) : option State :=
  ps ← mapM asPhotoItem (values r);
  Some {| photos := ps; activeId := selected r; error := message r |}.

(** The save effect (runs after every render in which [photos] changed). *)
Definition saveEffect (st : State) (ls : Storage) : Storage :=
  match setItem ls STORAGE_KEY (JSON_stringify (photos st)) with
  | Ok ls' => ls'
  | Throw _ => ls
  end.

(** *** The handlers *)

(** What the browser supplies to one call of [addFiles]: the identifier and
    the time of the [k]-th record it builds. *)
Record Browser := {
  randomUUID : nat -> jstring;
  Date_now : nat -> Z;
}.

Definition readFileAsDataURL (f : File) : result jstring := file_dataURL f.

(** The [for] loop of [addFiles], from its [k]-th turn on. *)
Fixpoint read_files (env : Browser) (k : nat) (files : list File)
  : result (list PhotoItem) :=
  match files with
  | [] => Ok []
  | f :: files' =>
      match readFileAsDataURL f with
      | Throw e => Throw e
      | Ok url =>
          let item := {| id := randomUUID env k; name := file_name f;
                         type := file_type f; size := file_size f;
                         createdAt := Date_now env k; dataUrl := url |} in
          match read_files env (S k) files' with
          | Ok next => Ok (item :: next)
          | Throw e => Throw e
          end
      end
  end.

Definition too_large (f : File) : jstring :=
  str "One file is too large (" ++ file_name f ++ str ", "
    ++ formatBytes (of_int (file_size f)) ++ str "). Max "
    ++ formatBytes (of_int MAX_IMAGE_BYTES) ++ str ".".

(** [addFiles]: the state once the call has settled. When a read fails the
    promise of [addFiles] rejects after [setError(null)] and before
    [setPhotos]. *)
Definition addFiles (env : Browser) (fileList : option (list File)) (st : State)
  : State :=
  let st := setError None st in
  let files :=
    List.filter (fun f => startsWith (file_type f) (str "image/")) (Array_from fileList) in
  match files with
  | [] => setError (Some (str "Please select an image file (JPG/PNG/WebP/GIF).")) st
  | _ :: _ =>
      match List.find (fun f => file_size f >? MAX_IMAGE_BYTES) files with
      | Some tooBig => setError (Some (too_large tooBig)) st
      | None =>
          match read_files env 0 files with
          | Throw _ => st
          | Ok next =>
              let st := setPhotos (take MAX_STORED_IMAGES (next ++ photos st)) st in
              match next with
              | [item] => setActiveId (Some (id item)) st
              | _ => st
              end
          end
      end
  end.

Definition removePhoto (i : jstring) (st : State) : State :=
  let st' := setPhotos (List.filter (fun p => negb (bool_decide (id p = i))) (photos st)) st in
  if bool_decide (activeId st = Some i) then setActiveId None st' else st'.

Definition clearAll (st : State) (ls : Storage) : State * Storage :=
  (setActiveId None (setPhotos [] st),
   match removeItem ls STORAGE_KEY with
   | Ok ls' => ls'
   | Throw _ => ls
   end).

(** *** What the view derives from the state *)

(** [activePhoto]: [photos.find((p) => p.id === activeId) ?? null]. No
    identifier equals [null]. *)
Definition activePhoto (st : State) : option PhotoItem :=
  match activeId st with
  | Some a => List.find (fun p => bool_decide (id p = a)) (photos st)
  | None => None
  end.

(** The anchor [downloadActive] clicks. *)
Record Anchor := {
  href : jstring;
  download : jstring;
}.

(** [downloadActive]: the anchor that is clicked, if any. *)
Definition downloadActive (st : State) : option Anchor :=
  match activePhoto st with
  | None => None
  | Some p =>
      Some {| href := dataUrl p;
              download := if truthy (name p) then name p else str "photo" |}
  end.

(** [onDrop], and the [onChange] of the file input, which has the same guard:
    [if (files?.length) addFiles(files)]. *)
Definition onDrop (env : Browser) (files : option (list File)) (st : State) : State :=
  match files with
  | Some (_ :: _) => addFiles env files st
  | _ => st
  end.

End Local.

(** ** The server-backed component *)

Module Server.

Record PhotoItem := {
  id : Z;
  name : jstring;
  created_at : jstring;
  image_url : jstring;
  thumb_url : jstring;
}.

Definition MAX_IMAGE_BYTES : Z := 4 * 1024 * 1024 * 1024.

Record State := {
  photos : list PhotoItem;
  activeId : option Z;
  error : option jstring;
  busy : bool;
}.

Definition initial : State :=
  {| photos := []; activeId := None; error := None; busy := false |}.

Definition setPhotos (ps : list PhotoItem) (st : State) : State :=
  {| photos := ps; activeId := activeId st; error := error st; busy := busy st |}.

Definition setActiveId (a : option Z) (st : State) : State :=
  {| photos := photos st; activeId := a; error := error st; busy := busy st |}.

Definition setError (e : option jstring) (st : State) : State :=
  {| photos := photos st; activeId := activeId st; error := e; busy := busy st |}.

Definition setBusy (b : bool) (st : State) : State :=
  {| photos := photos st; activeId := activeId st; error := error st; busy := b |}.

(** *** The collection endpoint *)

Inductive request :=
| GET_photos                          (* GET    {API}/api/photos/      *)
| POST_photos (images : list File)    (* POST   {API}/api/photos/      *)
| DELETE_photo (id : Z).              (* DELETE {API}/api/photos/{id}/ *)

(** A response: its status, and what reading its body as text and as JSON
    (at the type the component declares for it) delivers. *)
Record Response := {
  status : Z;
  text : result jstring;
  json_body : result (list PhotoItem);
}.

(** [Response.ok]. *)
Definition ok (res : Response) : bool := (200 <=? status res) && (status res <=? 299).

(** [fetch]: the response, or the rejection of the request. *)
Abbreviation Fetch := (request -> result Response).

(** [e?.message || fallback]. *)
Definition message_or (fallback : string) (message : jstring) : jstring :=
  if truthy message then message else str fallback.

(** *** The handlers *)

(** The [try] block of [loadPhotos]. *)
Definition loadPhotos_try (fetch : Fetch) : result (list PhotoItem) :=
  match fetch GET_photos with
  | Throw e => Throw e
  | Ok res =>
      if negb (ok res)
      then Throw (str "Failed to load (" ++ Number_toString (status res) ++ str ")")
      else json_body res
  end.

Definition loadPhotos (fetch : Fetch) (st : State) : State :=
  let st := setError None st in
  match loadPhotos_try fetch with
  | Ok data => setPhotos data st
  | Throw e => setError (Some (message_or "Failed to load photos" e)) st
  end.

Definition too_large (f : File) : jstring :=
  str "File too large: " ++ file_name f ++ str " ("
    ++ formatBytes (of_int (file_size f)) ++ str "). Max "
    ++ formatBytes (of_int MAX_IMAGE_BYTES) ++ str ".".

(** The [try] block of [uploadFiles]. *)
Definition uploadFiles_try (fetch : Fetch) (files : list File) (st : State)
  : result State :=
  match fetch (POST_photos files) with
  | Throw e => Throw e
  | Ok res =>
      if negb (ok res) then
        match text res with
        | Throw e => Throw e
        | Ok t =>
            Throw (str "Upload failed (" ++ Number_toString (status res) ++ str "): " ++ t)
        end
      else Ok (loadPhotos fetch st)
  end.

Definition uploadFiles (fetch : Fetch) (fileList : option (list File)) (st : State)
  : State :=
  let st := setError None st in
  let files :=
    List.filter (fun f => startsWith (file_type f) (str "image/")) (Array_from fileList) in
  match files with
  | [] => setError (Some (str "Please select an image file (JPG/PNG/WebP/GIF).")) st
  | _ :: _ =>
      match List.find (fun f => file_size f >? MAX_IMAGE_BYTES) files with
      | Some tooBig => setError (Some (too_large tooBig)) st
      | None =>
          let st := setBusy true st in
          let st :=
            match uploadFiles_try fetch files st with
            | Ok st' => st'
            | Throw e => setError (Some (message_or "Upload failed" e)) st
            end in
          setBusy false st
      end
  end.

(** The [try] block of [deletePhoto]. *)
Definition deletePhoto_try (fetch : Fetch) (i : Z) (st : State) : result State :=
  match fetch (DELETE_photo i) with
  | Throw e => Throw e
  | Ok res =>
      if negb (ok res) && negb (status res =? 204)
      then Throw (str "Delete failed (" ++ Number_toString (status res) ++ str ")")
      else
        let st' :=
          setPhotos (List.filter (fun p => negb (id p =? i)) (photos st)) st in
        Ok (if bool_decide (activeId st = Some i) then setActiveId None st' else st')
  end.

Definition deletePhoto (fetch : Fetch) (i : Z) (st : State) : State :=
  let st := setBusy true (setError None st) in
  let st :=
    match deletePhoto_try fetch i st with
    | Ok st' => st'
    | Throw e => setError (Some (message_or "Delete failed" e)) st
    end in
  setBusy false st.

(** *** What the view derives from the state *)

(** [activePhoto]: [photos.find((p) => p.id === activeId) ?? null]. *)
Definition activePhoto (st : State) : option PhotoItem :=
  match activeId st with
  | Some a => List.find (fun p => id p =? a) (photos st)
  | None => None
  end.

Record Anchor := {
  href : jstring;
  download : jstring;
}.

(** [downloadActive]: the anchor that is clicked, if any. *)
Definition downloadActive (st : State) : option Anchor :=
  match activePhoto st with
  | None => None
  | Some p =>
      Some {| href := image_url p;
              download := if truthy (name p) then name p
                          else str "photo-" ++ Number_toString (id p) |}
  end.

(** [onDrop], and the [onChange] of the file input, which has the same guard. *)
Definition onDrop (fetch : Fetch) (files : option (list File)) (st : State) : State :=
  match files with
  | Some (_ :: _) => uploadFiles fetch files st
  | _ => st
  end.

End Server.

(** ** Vocabulary of the statements *)

(** The record [addFiles] builds in its [k]-th turn for file [f] read as [url]. *)
Definition record_of (env : Local.Browser) (k : nat) (f : File) (url : jstring)
  : Local.PhotoItem :=
  {| Local.id := Local.randomUUID env k; Local.name := file_name f;
     Local.type := file_type f; Local.size := file_size f;
     Local.createdAt := Local.Date_now env k; Local.dataUrl := url |}.

(** The records of a batch, in the order of the files. *)
Definition new_records (env : Local.Browser) (files : list File) (urls : list jstring)
  : list Local.PhotoItem :=
  imap (fun k fu => record_of env k fu.1 fu.2) (zip files urls).

(** A file [addFiles] accepts: an image within the size limit. *)
Definition accepted (f : File) : Prop :=
  startsWith (file_type f) (str "image/") = true /\ file_size f <= Local.MAX_IMAGE_BYTES.

(** The value [JSON.parse] builds for the text of a [PhotoItem]. *)
Abbreviation PhotoItem_value := Local.PhotoItem_value.

(** Sizes and timestamps below 2^53 in magnitude, as every [File.size] and
    every [Date.now()] is: a Number holds each of them exactly and writes it
    with all its digits. *)
Definition exact_numbers (p : Local.PhotoItem) : Prop :=
  isSafeInteger (Local.size p) = true /\ isSafeInteger (Local.createdAt p) = true.

(** The length of the array the storage holds under the key of the gallery,
    when it holds one. *)
Definition persisted_length (ls : Storage) : option nat :=
  match getItem ls Local.STORAGE_KEY with
  | Ok (Some raw) =>
      if truthy raw then
        match JSON_parse raw with
        | Some (JArray items) => Some (length items)
        | _ => None
        end
      else None
  | _ => None
  end.


(** The files of a list that pass the filter on the declared media type. *)
Definition images_of (fileList : option (list File)) : list File :=
  List.filter (fun f => startsWith (file_type f) (str "image/")) (Array_from fileList).

(** A list of files none of which exceeds the limit. *)
Definition within (limit : Z) (files : list File) : Prop :=
  Forall (fun f => file_size f <= limit) files.

(** What may follow a numeral: the end of the text or a character that
    continues no number. *)
Definition number_end (t : jstring) : Prop :=
  match t with
  | [] => True
  | c :: _ => digit_cons c = None /\ (c =? 46)%N = false /\
              (c =? 101)%N || (c =? 69)%N = false
  end.

(** A parser that takes fuel has enough of it with twice the number of
    characters it reads: when it succeeds with fuel [f], it reads at least
    one character and succeeds with the same result with any such fuel. *)
Definition fuel_enough {A} (parse : nat -> jstring -> option (A * jstring)) (f : nat)
  : Prop :=
  forall t a r,
    parse f t = Some (a, r) ->
    (length r < length t)%nat /\
    forall f', (2 * (length t - length r) <= f')%nat -> parse f' t = Some (a, r).

(** ** Sample data *)

Definition sample_browser : Local.Browser :=
  {| Local.randomUUID := fun k => str "uuid-" ++ decimal_N (N.of_nat k);
     Local.Date_now := fun k => 1700000000000 + Z.of_nat k |}.

Definition sample_url : jstring := str "data:image/png;base64,iVBORw0KGgo=".

(** A PNG of 1 MiB. *)
Definition sample_file : File :=
  {| file_name := str "cat.png"; file_type := str "image/png";
     file_size := 1024 * 1024; file_dataURL := Ok sample_url |}.

(** A PNG of 5 MiB. *)
Definition large_file : File :=
  {| file_name := str "poster.png"; file_type := str "image/png";
     file_size := 5 * 1024 * 1024; file_dataURL := Ok sample_url |}.

(** A PNG that the browser fails to read. *)
Definition unreadable_file : File :=
  {| file_name := str "gone.png"; file_type := str "image/png";
     file_size := 2048; file_dataURL := Throw (str "NotReadableError") |}.

Definition sample_photo (k : nat) : Local.PhotoItem :=
  {| Local.id := str "old-" ++ decimal_N (N.of_nat k); Local.name := str "old.png";
     Local.type := str "image/png"; Local.size := 2048;
     Local.createdAt := 1600000000000 + Z.of_nat k; Local.dataUrl := sample_url |}.

(** A gallery at its maximum of 30 photos. *)
Definition full_gallery : Local.State :=
  Local.setPhotos (sample_photo <$> seq 0 30) Local.initial.


Definition sample_remote (k : Z) : Server.PhotoItem :=
  {| Server.id := k; Server.name := str "remote.png";
     Server.created_at := str "2024-01-01T00:00:00Z";
     Server.image_url := str "/media/remote.png";
     Server.thumb_url := str "/media/remote_thumb.png" |}.

Definition sample_remote_state : Server.State :=
  {| Server.photos := [sample_remote 1; sample_remote 2; sample_remote 3];
     Server.activeId := Some 2; Server.error := Some (str "stale"); Server.busy := false |}.

(** A server that refuses every request with status 500 and body "boom". *)
Definition failing_server : Server.Fetch :=
  fun _ => Ok {| Server.status := 500; Server.text := Ok (str "boom");
                 Server.json_body := Throw (str "Unexpected token") |}.

(** A server whose refusal cannot be read: status 500, and the connection
    breaks while the body is read. *)
Definition unread_server : Server.Fetch :=
  fun _ => Ok {| Server.status := 500; Server.text := Throw (str "network error");
                 Server.json_body := Throw (str "network error") |}.

(** A server that answers a deletion with 204 and lists what is left. *)
Definition obliging_server : Server.Fetch :=
  fun req =>
    match req with
    | Server.DELETE_photo _ =>
        Ok {| Server.status := 204; Server.text := Ok [];
              Server.json_body := Throw (str "Unexpected end of JSON input") |}
    | _ =>
        Ok {| Server.status := 200; Server.text := Ok (str "[]");
              Server.json_body := Ok [sample_remote 1] |}
    end.

(** ** The first render of the browser-only component

    After the first commit the two effects run in the order they are
    declared: the load effect reads the storage and queues [setPhotos], the
    save effect writes the sequence of the first render, which is empty.
    When [setPhotos] was called the component renders again and, [photos]
    being a new array, the save effect runs again with what was loaded.
    [None]: what was loaded is not at the declared type. *)
Definition mount (ls : Storage) : option (Local.State * Storage) :=
  st ← Local.typed (Local.loadEffect ls Local.initial);
  let ls1 := Local.saveEffect Local.initial ls in
  Some (st, match persisted_length ls with
            | Some _ => Local.saveEffect st ls1
            | None => ls1
            end).

(** ** More vocabulary *)

(** The number of divisions [formatBytes] makes, read off its thresholds. *)
Definition unit_index (b : Q) : nat :=
  if Qlt_bool b 1024 then 0
  else if Qlt_bool b (1024 * 1024) then 1
  else if Qlt_bool b (1024 * 1024 * 1024) then 2
  else 3.

(** A record as [addFiles] admits them: an image of at most 4 MiB. *)
Definition intake_ok (p : Local.PhotoItem) : Prop :=
  startsWith (Local.type p) (str "image/") = true /\
  Local.size p <= Local.MAX_IMAGE_BYTES.

(** ** The start-up script of the server ([entrypoint], a POSIX shell script
    under [set -e]) *)

Module Entrypoint.

(** The commands the script runs. *)
Inductive command :=
| Echo (text : jstring)
| Probe          (* nc -z "$DB_HOST" "$DB_PORT" *)
| Sleep          (* sleep 1 *)
| Migrate        (* python manage.py migrate *)
| Runserver.     (* python manage.py runserver 0.0.0.0:8000 *)

(** What the machine supplies: the two variables, whether the [k]-th probe
    of the port succeeds, and the exit status of the two [manage.py]
    commands. *)
Record World := {
  DB_HOST : jstring;
  DB_PORT : jstring;
  nc : nat -> bool;
  migrate : Z;
  runserver : Z;
}.

(** The [until] loop from its [k]-th probe on, for at most [fuel] probes:
    the commands it runs, or [None] when the port has not answered yet. *)
Fixpoint until_loop (w : World) (k fuel : nat) : option (list command) :=
  match fuel with
  | O => None
  | S fuel' =>
      if nc w k then Some [Probe]
      else cs ← until_loop w (S k) fuel'; Some (Probe :: Sleep :: cs)
  end.

(** The script: the commands it runs and its exit status, or [None] when it
    is still waiting after [fuel] probes. Under [set -e] a failing migration
    ends the script with the status of the migration. *)
Definition entrypoint (w : World) (fuel : nat) : option (list command * Z) :=
  cs ← until_loop w 0 fuel;
  let waited :=
    Echo (str "Waiting for PostgreSQL at " ++ DB_HOST w ++ str ":" ++ DB_PORT w ++ str "...")
      :: cs ++ [Echo (str "PostgreSQL is up!"); Migrate] in
  if migrate w =? 0 then Some (waited ++ [Runserver], runserver w)
  else Some (waited, migrate w).

End Entrypoint.

(** ** More sample data *)

(** A file that is no image. *)
Definition text_file : File :=
  {| file_name := str "notes.txt"; file_type := str "text/plain";
     file_size := 120; file_dataURL := Ok (str "data:text/plain;base64,aGk=") |}.

(** The gallery with its first photo shown. *)
Definition showing_first : Local.State :=
  Local.setActiveId (Some (str "old-0")) full_gallery.

(** A server that takes every upload and then lists two photos. *)
Definition accepting_server : Server.Fetch :=
  fun req =>
    match req with
    | Server.GET_photos =>
        Ok {| Server.status := 200; Server.text := Ok (str "[...]");
              Server.json_body := Ok [sample_remote 7; sample_remote 8] |}
    | _ =>
        Ok {| Server.status := 201; Server.text := Ok (str "[...]");
              Server.json_body := Ok [] |}
    end.

(** A machine whose database answers the fourth probe and whose migration
    fails with status 1. *)
Definition slow_database : Entrypoint.World :=
  {| Entrypoint.DB_HOST := str "db"; Entrypoint.DB_PORT := str "5432";
     Entrypoint.nc := fun k => (3 <=? k)%nat;
     Entrypoint.migrate := 1; Entrypoint.runserver := 0 |}.

(** * Properties *)

(** ** Sample runs of the formatter *)

Example formatBytes_4MiB : formatBytes (of_int (4 * 1024 * 1024)) = str "4.0 MB".
Proof. vm_compute. reflexivity. Qed.

Example formatBytes_4GiB : formatBytes (of_int Server.MAX_IMAGE_BYTES) = str "4.0 GB".
Proof. vm_compute. reflexivity. Qed.

Example formatBytes_1023 : formatBytes (of_int 1023) = str "1023 B".
Proof. vm_compute. reflexivity. Qed.

Example formatBytes_1536 : formatBytes (of_int 1536) = str "1.5 KB".
Proof. vm_compute. reflexivity. Qed.

Example formatBytes_negative : formatBytes (Finite (- (1 # 25))) = str "-0 B".
Proof. vm_compute. reflexivity. Qed.

Example toFixed_rounds_half_up : toFixed (5 # 4) 1 = str "1.3".
Proof. vm_compute. reflexivity. Qed.

Example toString_2_pow_70 :
  Number_toString_large (inject_Z (2 ^ 70)) = str "1.1805916207174113e+21".
Proof. vm_compute. reflexivity. Qed.

Example toString_after_1e21 :
  Number_toString_large (inject_Z (10 ^ 21 + 2 ^ 17)) = str "1.0000000000000001e+21".
Proof. vm_compute. reflexivity. Qed.

Example toString_2_pow_60 : Number_toString (2 ^ 60) = str "1152921504606847000".
Proof. vm_compute. reflexivity. Qed.

Example toString_2_pow_53 : Number_toString (- 2 ^ 53) = str "-9007199254740992".
Proof. vm_compute. reflexivity. Qed.

Example toString_below_1e21 : Number_toString (10 ^ 21 - 1) = str "1e+21".
Proof. vm_compute. reflexivity. Qed.

Example Number_value_ties_to_even :
  Number_value (2 ^ 53 + 1) = Some (2 ^ 53) /\ Number_value (2 ^ 53 + 3) = Some (2 ^ 53 + 4).
Proof. split; vm_compute; reflexivity. Qed.

(** ** Facts about numerals *)


Lemma uint_chars_nonnil d : d <> Nil -> uint_chars d <> [].
Proof. destruct d; simpl; congruence. Qed.


Lemma decimal_N_nonnil n : decimal_N n <> [].
Proof.
  apply uint_chars_nonnil. destruct n as [|p]; simpl.
  - discriminate.
  - apply DecimalPos.Unsigned.to_uint_nonnil.
Qed.





(** ** The byte-size formatter *)




Lemma Qdiv_1024 (v : Q) : (v / 1024 * 1024 == v)%Q.
Proof. apply Qdiv_mult_l. discriminate. Qed.





(** ** The browser-only component: Add and Remove *)

Lemma filter_all {A} (f : A -> bool) l :
  Forall (fun x => f x = true) l -> List.filter f l = l.
Proof.
  induction 1 as [|x l Hx _ IH]; simpl; [reflexivity|]. rewrite Hx, IH. reflexivity.
Qed.

Lemma filter_twice {A} (f : A -> bool) l :
  List.filter f (List.filter f l) = List.filter f l.
Proof.
  apply filter_all, Forall_forall. intros x Hx.
  apply list_elem_of_In, List.filter_In in Hx. apply Hx.
Qed.

Lemma find_all_false {A} (f : A -> bool) l :
  Forall (fun x => f x = false) l -> List.find f l = None.
Proof.
  induction 1 as [|x l Hx _ IH]; simpl; [reflexivity|]. rewrite Hx. exact IH.
Qed.

Lemma find_exists {A} (f : A -> bool) l x :
  In x l -> f x = true -> exists y, List.find f l = Some y.
Proof.
  intros Hin Hx. destruct (List.find f l) as [y|] eqn:Hfind; [eauto|].
  rewrite (List.find_none f l Hfind x Hin) in Hx. discriminate.
Qed.

Lemma read_files_ok env files : forall urls k,
  Forall2 (fun f url => Local.readFileAsDataURL f = Ok url) files urls ->
  Local.read_files env k files
  = Ok (imap (fun j fu => record_of env (k + j) fu.1 fu.2) (zip files urls)).
Proof.
  induction files as [|f files IH]; intros urls k Hread.
  - apply Forall2_nil_inv_l in Hread as ->. reflexivity.
  - apply Forall2_cons_inv_l in Hread as (url & urls' & Hf & Hrest & ->).
    cbn [Local.read_files]. rewrite Hf, (IH urls' (S k) Hrest).
    cbn [zip zip_with imap]. unfold record_of at 2. cbn [fst snd].
    rewrite Nat.add_0_r. do 2 f_equal.
    apply imap_ext. intros j [f' u'] _. simpl. f_equal. lia.
Qed.

Lemma new_records_length env files urls :
  length files = length urls -> length (new_records env files urls) = length files.
Proof.
  intros Hlen. unfold new_records. rewrite length_imap, length_zip. lia.
Qed.

Lemma photos_after_batch (next : list Local.PhotoItem) st :
  Local.photos
    (match next with
     | [item] => Local.setActiveId (Some (Local.id item)) st
     | _ => st
     end) = Local.photos st.
Proof. destruct next as [|? [|? ?]]; reflexivity. Qed.

Lemma accepted_batch files :
  Forall accepted files ->
  List.filter (fun f => startsWith (file_type f) (str "image/")) files = files /\
  List.find (fun f => file_size f >? Local.MAX_IMAGE_BYTES) files = None.
Proof.
  intros Hacc. split.
  - apply filter_all. eapply Forall_impl; [exact Hacc|]. intros f [Hty _]. exact Hty.
  - apply find_all_false. eapply Forall_impl; [exact Hacc|]. intros f [_ Hsz].
    rewrite Z.gtb_ltb. apply Z.ltb_ge. exact Hsz.
Qed.

(** C1 (as stated) fails: a batch whose file cannot be read. The batch is
    not empty and its one file is an image of 2 KiB, but [FileReader] reports
    an error for it; [addFiles] then adds no record, and the sequence keeps
    its length instead of growing by the size of the batch. *)
Lemma addFiles_unreadable_batch :
  [unreadable_file] <> [] /\
  Forall accepted [unreadable_file] /\
  Local.photos (Local.addFiles sample_browser (Some [unreadable_file]) Local.initial)
  = Local.photos Local.initial /\
  length (Local.photos (Local.addFiles sample_browser (Some [unreadable_file]) Local.initial))
  <> Nat.min (length (Local.photos Local.initial) + length [unreadable_file]) 30.
Proof.
  split; [discriminate|]. split.
  - repeat constructor. vm_compute. discriminate.
  - split; [reflexivity | vm_compute; discriminate].
Qed.

(** C1 (as amended). A non-empty batch of accepted files, each of which is
    read successfully, is prepended in input order and the sequence is cut to
    its first 30 entries: the new length is min(previous + batch, 30), the head
    of the new sequence is the batch (its first 30 records at most) and what
    follows is the head of the previous sequence; the entries that are
    dropped are the last ones. *)
Theorem addFiles_prepends_and_caps env files urls st :
  files <> [] ->
  Forall accepted files ->
  Forall2 (fun f url => Local.readFileAsDataURL f = Ok url) files urls ->
  let next := new_records env files urls in
  let st' := Local.addFiles env (Some files) st in
  length next = length files /\
  (forall k f url, files !! k = Some f -> urls !! k = Some url ->
                   next !! k = Some (record_of env k f url)) /\
  Local.photos st' = take 30 (next ++ Local.photos st) /\
  length (Local.photos st') = Nat.min (length (Local.photos st) + length files) 30 /\
  take (length files) (Local.photos st') = take 30 next /\
  drop (length files) (Local.photos st') = take (30 - length files) (Local.photos st).
Proof.
  intros Hne Hacc Hread next st'.
  assert (Hlen : length next = length files).
  { apply new_records_length. eapply Forall2_length. exact Hread. }
  assert (Hphotos : Local.photos st' = take 30 (next ++ Local.photos st)).
  { subst st'. unfold Local.addFiles. change (Array_from (Some files)) with files. cbv zeta.
    destruct (accepted_batch files Hacc) as [-> ->].
    destruct files as [|f files']; [congruence|].
    rewrite (read_files_ok env (f :: files') urls 0 Hread).
    rewrite photos_after_batch. reflexivity. }
  split; [exact Hlen|]. split.
  { intros k f url Hf Hu. subst next. unfold new_records.
    rewrite list_lookup_imap, lookup_zip_with, Hf. simpl. rewrite Hu. reflexivity. }
  split; [exact Hphotos|]. rewrite Hphotos.
  split; [rewrite length_take, length_app; lia|]. split.
  - rewrite take_take, take_app_le by lia.
    destruct (Nat.le_gt_cases (length files) 30).
    + rewrite Nat.min_l by lia. rewrite !take_ge by lia. reflexivity.
    + rewrite Nat.min_r by lia. reflexivity.
  - rewrite skipn_firstn_comm, drop_app_length'; [reflexivity | symmetry; exact Hlen].
Qed.

(** C2. When an accepted image of the batch exceeds 4 MiB, the photo sequence
    and the active selection are left as they were, for the whole batch, and
    the error names the first such file and its formatted size. *)
Theorem addFiles_rejects_oversized env fileList st f :
  f ∈ Array_from fileList ->
  startsWith (file_type f) (str "image/") = true ->
  file_size f > 4 * 1024 * 1024 ->
  exists tooBig,
    tooBig ∈ Array_from fileList /\
    startsWith (file_type tooBig) (str "image/") = true /\
    file_size tooBig > 4 * 1024 * 1024 /\
    let st' := Local.addFiles env fileList st in
    Local.photos st' = Local.photos st /\
    Local.activeId st' = Local.activeId st /\
    Local.error st'
    = Some (str "One file is too large (" ++ file_name tooBig ++ str ", "
              ++ formatBytes (of_int (file_size tooBig)) ++ str "). Max 4.0 MB.").
Proof.
  intros Hin Hty Hsz.
  set (files := List.filter (fun f => startsWith (file_type f) (str "image/"))
                            (Array_from fileList)).
  assert (Hf : In f files).
  { apply List.filter_In. split; [apply list_elem_of_In, Hin | exact Hty]. }
  destruct (find_exists (fun f => file_size f >? Local.MAX_IMAGE_BYTES) files f Hf)
    as [tooBig Hfind].
  { rewrite Z.gtb_ltb. apply Z.ltb_lt. unfold Local.MAX_IMAGE_BYTES. lia. }
  pose proof (List.find_some _ _ Hfind) as [Hin' Hbig].
  apply List.filter_In in Hin' as [Hin' Hty'].
  exists tooBig. split; [apply list_elem_of_In, Hin'|]. split; [exact Hty'|].
  split. { rewrite Z.gtb_ltb in Hbig. apply Z.ltb_lt in Hbig. unfold Local.MAX_IMAGE_BYTES in Hbig. lia. }
  unfold Local.addFiles. fold files. rewrite Hfind.
  destruct files as [|f0 files']; [destruct Hf|].
  repeat split.
Qed.

(** The scenario of the specification: a gallery of 30 photos and one more
    image of 1 MiB. The sequence keeps 30 entries, the new record comes
    first and the last of the old ones is gone. *)
Lemma addFiles_prepends_and_caps_witness :
  let st' := Local.addFiles sample_browser (Some [sample_file]) full_gallery in
  length (Local.photos st') = 30%nat /\
  Local.photos st' !! 0%nat = Some (record_of sample_browser 0 sample_file sample_url) /\
  drop 1 (Local.photos st') = take 29 (Local.photos full_gallery).
Proof.
  destruct (addFiles_prepends_and_caps sample_browser [sample_file] [sample_url] full_gallery)
    as (_ & _ & Hphotos & Hlen & _ & Hdrop).
  - discriminate.
  - repeat constructor. vm_compute. discriminate.
  - repeat constructor.
  - cbv zeta. split; [exact Hlen|]. split; [|exact Hdrop].
    rewrite Hphotos. reflexivity.
Defined.

(** A batch of a 1 MiB image and a 5 MiB image: nothing is added. *)
Lemma addFiles_rejects_oversized_witness :
  exists tooBig,
    tooBig ∈ [sample_file; large_file] /\ file_size tooBig > 4 * 1024 * 1024 /\
    Local.photos (Local.addFiles sample_browser (Some [sample_file; large_file]) full_gallery)
    = Local.photos full_gallery.
Proof.
  destruct (addFiles_rejects_oversized sample_browser (Some [sample_file; large_file])
              full_gallery large_file) as (tooBig & Hin & _ & Hbig & Hphotos & _).
  - simpl. set_solver.
  - reflexivity.
  - reflexivity.
  - exists tooBig. split; [exact Hin|]. split; [exact Hbig | exact Hphotos].
Defined.

(** When a read fails the call is abandoned before [setPhotos]. *)
Example addFiles_unreadable :
  Local.photos
    (Local.addFiles sample_browser (Some [sample_file; unreadable_file]) full_gallery)
  = Local.photos full_gallery.
Proof. reflexivity. Qed.

Lemma saveEffect_twice st ls :
  Local.saveEffect st (Local.saveEffect st ls) = Local.saveEffect st ls.
Proof.
  unfold Local.saveEffect. destruct ls as [|items quota]; [reflexivity|].
  cbn [setItem].
  destruct (storage_used _ <=? quota)%nat eqn:Hfit; cbn [setItem].
  - rewrite insert_insert_eq, Hfit. reflexivity.
  - rewrite Hfit. reflexivity.
Qed.

Lemma removePhoto_photos i st :
  Local.photos (Local.removePhoto i st)
  = List.filter (fun p => negb (bool_decide (Local.id p = i))) (Local.photos st).
Proof. unfold Local.removePhoto. destruct (bool_decide _); reflexivity. Qed.

Lemma removePhoto_activeId i st :
  Local.activeId (Local.removePhoto i st)
  = if bool_decide (Local.activeId st = Some i) then None else Local.activeId st.
Proof. unfold Local.removePhoto. destruct (bool_decide _); reflexivity. Qed.

Lemma removePhoto_error i st :
  Local.error (Local.removePhoto i st) = Local.error st.
Proof. unfold Local.removePhoto. destruct (bool_decide _); reflexivity. Qed.

Lemma State_eq (s t : Local.State) :
  Local.photos s = Local.photos t -> Local.activeId s = Local.activeId t ->
  Local.error s = Local.error t -> s = t.
Proof. destruct s, t; simpl; intros -> -> ->; reflexivity. Qed.

(** C9. [removePhoto] is a total function of the state that sets no error;
    it filters the records of the identifier out, whether there are any or
    not; a second call with the same identifier changes nothing, neither in
    the state nor in what the save effect then writes. *)
Theorem removePhoto_idempotent (i : jstring) (st : Local.State) (ls : Storage) :
  Local.removePhoto i (Local.removePhoto i st) = Local.removePhoto i st /\
  Local.saveEffect (Local.removePhoto i (Local.removePhoto i st))
                   (Local.saveEffect (Local.removePhoto i st) ls)
  = Local.saveEffect (Local.removePhoto i st) ls /\
  Local.photos (Local.removePhoto i st)
  = List.filter (fun p => negb (bool_decide (Local.id p = i))) (Local.photos st) /\
  Local.error (Local.removePhoto i st) = Local.error st.
Proof.
  assert (Hidem : Local.removePhoto i (Local.removePhoto i st) = Local.removePhoto i st).
  { apply State_eq.
    - rewrite !removePhoto_photos. apply filter_twice.
    - rewrite !removePhoto_activeId.
      destruct (bool_decide_reflect (Local.activeId st = Some i)) as [Ha|Ha].
      + reflexivity.
      + rewrite bool_decide_eq_false_2 by exact Ha. reflexivity.
    - rewrite !removePhoto_error. reflexivity. }
  split; [exact Hidem|]. split.
  - rewrite Hidem. apply saveEffect_twice.
  - split; [apply removePhoto_photos | apply removePhoto_error].
Qed.

(** ** The browser-only component: ClearAll *)

Lemma JSON_parse_empty_array : JSON_parse (str "[]") = Some (JArray []).
Proof. vm_compute. reflexivity. Qed.

Lemma loadEffect_empty_array items quota st :
  items !! Local.STORAGE_KEY = Some (str "[]") ->
  Local.loadEffect (Open items quota) st = Local.runtime (Local.setPhotos [] st).
Proof.
  intros Hraw. unfold Local.loadEffect. cbn [getItem]. rewrite Hraw.
  change (truthy (str "[]")) with true. cbv iota.
  rewrite JSON_parse_empty_array. reflexivity.
Qed.

Lemma loadEffect_absent ls st :
  (forall raw, getItem ls Local.STORAGE_KEY <> Ok (Some raw)) ->
  Local.loadEffect ls st = Local.runtime st.
Proof.
  intros Habsent. unfold Local.loadEffect.
  destruct (getItem ls Local.STORAGE_KEY) as [[raw|]|]; try reflexivity.
  destruct (Habsent raw). reflexivity.
Qed.

(** C8. [clearAll] empties the sequence and the active selection and removes
    the entry from the storage. A fresh load from that storage yields the
    empty sequence; so does a fresh load after the save effect that follows
    the change of [photos] has run (it writes the empty array back when the
    storage accepts it). The loaded state is given as the run-time holds it
    and at the declared type. *)
Theorem clearAll_then_reload (st : Local.State) (ls : Storage) :
  let st' := (Local.clearAll st ls).1 in
  let ls' := (Local.clearAll st ls).2 in
  Local.photos st' = [] /\
  Local.activeId st' = None /\
  (forall raw, getItem ls' Local.STORAGE_KEY <> Ok (Some raw)) /\
  Local.loadEffect ls' Local.initial = Local.runtime Local.initial /\
  Local.typed (Local.loadEffect ls' Local.initial) = Some Local.initial /\
  Local.loadEffect (Local.saveEffect st' ls') Local.initial = Local.runtime Local.initial /\
  Local.typed (Local.loadEffect (Local.saveEffect st' ls') Local.initial)
  = Some Local.initial.
Proof.
  cbv zeta. cbn [Local.clearAll fst snd].
  assert (Hgone : forall raw,
             getItem (match removeItem ls Local.STORAGE_KEY with
                      | Ok ls' => ls' | Throw _ => ls end) Local.STORAGE_KEY
             <> Ok (Some raw)).
  { intros raw. destruct ls as [|items quota]; cbn [removeItem getItem]; [discriminate|].
    rewrite lookup_delete_eq. discriminate. }
  assert (Hsaved :
            Local.loadEffect
              (Local.saveEffect
                 (Local.setActiveId None (Local.setPhotos [] st))
                 (match removeItem ls Local.STORAGE_KEY with
                  | Ok ls' => ls' | Throw _ => ls end)) Local.initial
            = Local.runtime Local.initial).
  { unfold Local.saveEffect. cbn [Local.photos Local.setActiveId Local.setPhotos].
    destruct ls as [|items quota]; cbn [removeItem setItem]; [reflexivity|].
    destruct (storage_used _ <=? quota)%nat.
    + apply (loadEffect_empty_array _ _ Local.initial), lookup_insert_eq.
    + apply loadEffect_absent. intros raw. cbn [getItem].
      rewrite lookup_delete_eq. discriminate. }
  split; [reflexivity|]. split; [reflexivity|]. split; [exact Hgone|].
  split; [apply loadEffect_absent, Hgone|].
  split; [rewrite (loadEffect_absent _ _ Hgone); reflexivity|].
  split; [exact Hsaved | rewrite Hsaved; reflexivity].
Qed.

(** ** The server-backed component *)

Lemma uploadFiles_sent fetch fileList st :
  images_of fileList <> [] -> within Server.MAX_IMAGE_BYTES (images_of fileList) ->
  Server.uploadFiles fetch fileList st
  = Server.setBusy false
      (match Server.uploadFiles_try fetch (images_of fileList)
               (Server.setBusy true (Server.setError None st)) with
       | Ok st' => st'
       | Throw e =>
           Server.setError (Some (Server.message_or "Upload failed" e))
             (Server.setBusy true (Server.setError None st))
       end).
Proof.
  intros Hne Hsize. unfold Server.uploadFiles. fold (images_of fileList). cbv zeta.
  replace (List.find (fun f => file_size f >? Server.MAX_IMAGE_BYTES) (images_of fileList))
    with (@None File).
  - destruct (images_of fileList); [congruence | reflexivity].
  - symmetry. apply find_all_false. eapply Forall_impl; [exact Hsize|]. intros f Hf.
    rewrite Z.gtb_ltb. apply Z.ltb_ge. exact Hf.
Qed.

(** C6 (as stated) fails: a refusal whose body cannot be read. The server
    answers the upload with status 500 and reading the body fails with
    "network error"; the photo sequence stays, but the error is that message
    and carries neither the status code nor any body text. *)
Lemma uploadFiles_refusal_unread :
  unread_server (Server.POST_photos (images_of (Some [sample_file])))
  = Ok {| Server.status := 500; Server.text := Throw (str "network error");
          Server.json_body := Throw (str "network error") |} /\
  Server.ok {| Server.status := 500; Server.text := Throw (str "network error");
               Server.json_body := Throw (str "network error") |} = false /\
  Server.error (Server.uploadFiles unread_server (Some [sample_file]) sample_remote_state)
  = Some (str "network error") /\
  ~ (exists t,
       Server.error (Server.uploadFiles unread_server (Some [sample_file]) sample_remote_state)
       = Some (str "Upload failed (" ++ Number_toString 500 ++ str "): " ++ t)).
Proof.
  split; [reflexivity|]. split; [reflexivity|]. split; [reflexivity|].
  intros [t Ht]. vm_compute in Ht. discriminate Ht.
Qed.

(** C6 (as amended). When the upload of the images of a batch is answered
    with a status outside 200-299, the photo sequence and the active
    selection stay as they were and the busy flag is released. When the body
    of the answer can be read, as text [t], the error is
    "Upload failed (<status>): <t>"; when reading it fails, the error is the
    message of that failure, or "Upload failed" when it has none. *)
Theorem uploadFiles_refused fetch fileList st res :
  images_of fileList <> [] ->
  within Server.MAX_IMAGE_BYTES (images_of fileList) ->
  fetch (Server.POST_photos (images_of fileList)) = Ok res ->
  Server.ok res = false ->
  let st' := Server.uploadFiles fetch fileList st in
  Server.photos st' = Server.photos st /\
  Server.activeId st' = Server.activeId st /\
  Server.busy st' = false /\
  Server.error st'
  = Some (match Server.text res with
          | Ok t =>
              str "Upload failed (" ++ Number_toString (Server.status res) ++ str "): " ++ t
          | Throw e => Server.message_or "Upload failed" e
          end).
Proof.
  intros Hne Hsize Hres Hok. cbv zeta.
  rewrite (uploadFiles_sent fetch fileList st Hne Hsize).
  unfold Server.uploadFiles_try. rewrite Hres, Hok. cbn [negb].
  destruct (Server.text res) as [t|e]; repeat split.
Qed.

(** An upload answered with status 500 and body "boom". *)
Lemma uploadFiles_refused_witness :
  let st' := Server.uploadFiles failing_server (Some [sample_file]) sample_remote_state in
  Server.photos st' = Server.photos sample_remote_state /\
  Server.error st' = Some (str "Upload failed (500): boom").
Proof.
  destruct (uploadFiles_refused failing_server (Some [sample_file]) sample_remote_state
              {| Server.status := 500; Server.text := Ok (str "boom");
                 Server.json_body := Throw (str "Unexpected token") |})
    as (Hphotos & _ & _ & Herror).
  - vm_compute. discriminate.
  - repeat constructor. vm_compute. discriminate.
  - reflexivity.
  - reflexivity.
  - split; [exact Hphotos | exact Herror].
Defined.

Lemma filter_other_ids (i : Z) (ps : list Server.PhotoItem) (p : Server.PhotoItem) :
  p ∈ List.filter (fun p => negb (Server.id p =? i)) ps <-> p ∈ ps /\ Server.id p <> i.
Proof.
  rewrite !list_elem_of_In, List.filter_In, negb_true_iff, Z.eqb_neq. reflexivity.
Qed.

(** C7. [deletePhoto] when the server answers: on a status in 200-299 or 204
    the sequence loses exactly the records of that identifier, the others
    keeping their order, the active selection is cleared if it was that
    identifier and kept otherwise, and no error is left; on any other status
    the sequence and the selection stay as they were and the error reports
    the status. When the request itself fails the sequence also stays. *)
Theorem deletePhoto_outcome (fetch : Server.Fetch) (i : Z) (st : Server.State) :
  let st' := Server.deletePhoto fetch i st in
  Server.busy st' = false /\
  match fetch (Server.DELETE_photo i) with
  | Ok res =>
      if Server.ok res || (Server.status res =? 204) then
        Server.photos st'
        = List.filter (fun p => negb (Server.id p =? i)) (Server.photos st) /\
        (forall p, p ∈ Server.photos st' <-> p ∈ Server.photos st /\ Server.id p <> i) /\
        Server.activeId st'
        = (if bool_decide (Server.activeId st = Some i) then None else Server.activeId st) /\
        Server.error st' = None
      else
        Server.photos st' = Server.photos st /\
        Server.activeId st' = Server.activeId st /\
        Server.error st'
        = Some (str "Delete failed (" ++ Number_toString (Server.status res) ++ str ")")
  | Throw e =>
      Server.photos st' = Server.photos st /\
      Server.activeId st' = Server.activeId st /\
      Server.error st' = Some (Server.message_or "Delete failed" e)
  end.
Proof.
  cbv zeta. unfold Server.deletePhoto, Server.deletePhoto_try.
  split; [reflexivity|].
  destruct (fetch (Server.DELETE_photo i)) as [res|e]; [|repeat split].
  change (Server.activeId (Server.setBusy true (Server.setError None st)))
    with (Server.activeId st).
  destruct (Server.ok res); cbn [negb andb orb].
  - destruct (bool_decide (Server.activeId st = Some i));
      (split; [reflexivity|]); (split; [intros p; apply filter_other_ids|]);
      split; reflexivity.
  - destruct (Server.status res =? 204); cbn [negb].
    + destruct (bool_decide (Server.activeId st = Some i));
        (split; [reflexivity|]); (split; [intros p; apply filter_other_ids|]);
        split; reflexivity.
    + repeat split.
Qed.

Lemma deletePhoto_ok fetch i st res :
  fetch (Server.DELETE_photo i) = Ok res ->
  Server.ok res || (Server.status res =? 204) = true ->
  Server.error (Server.deletePhoto fetch i st) = None.
Proof.
  intros Hres Hok. unfold Server.deletePhoto, Server.deletePhoto_try. rewrite Hres.
  replace (negb (Server.ok res) && negb (Server.status res =? 204)) with false
    by (rewrite <- negb_orb, Hok; reflexivity).
  cbn [Server.activeId Server.setBusy Server.setError].
  destruct (bool_decide _); reflexivity.
Qed.

Example deletePhoto_active :
  let st' := Server.deletePhoto obliging_server 2 sample_remote_state in
  Server.photos st' = [sample_remote 1; sample_remote 3] /\
  Server.activeId st' = None /\ Server.error st' = None.
Proof. repeat split. Qed.

Example deletePhoto_refused :
  let st' := Server.deletePhoto failing_server 2 sample_remote_state in
  Server.photos st' = Server.photos sample_remote_state /\
  Server.activeId st' = Some 2 /\
  Server.error st' = Some (str "Delete failed (500)").
Proof. repeat split. Qed.

(** Deleting the active photo 2 of three, answered with 204. *)
Lemma deletePhoto_outcome_witness :
  let st' := Server.deletePhoto obliging_server 2 sample_remote_state in
  Server.photos st' = [sample_remote 1; sample_remote 3] /\
  Server.activeId st' = None /\ Server.error st' = None.
Proof.
  destruct (deletePhoto_outcome obliging_server 2 sample_remote_state)
    as (_ & Hphotos & _ & Hactive & Herror).
  split; [exact Hphotos|]. split; [exact Hactive | exact Herror].
Defined.

(** ** The error state *)

Lemma loadPhotos_error fetch st :
  Server.error (Server.loadPhotos fetch st)
  = match Server.loadPhotos_try fetch with
    | Ok _ => None
    | Throw e => Some (Server.message_or "Failed to load photos" e)
    end.
Proof. unfold Server.loadPhotos. destruct (Server.loadPhotos_try fetch); reflexivity. Qed.

(** C4 (as stated) fails: in the browser-only component a removal that
    follows a refused batch leaves the message of that batch in place. *)
Lemma error_survives_removePhoto :
  Local.error (Local.removePhoto (str "old-0")
                 (Local.addFiles sample_browser (Some [large_file]) full_gallery))
  <> None.
Proof. vm_compute. discriminate. Qed.

(** C4 (as amended). The error is one slot. Add in both components, and
    Reload and Remove in the server-backed one, empty the slot when they
    start: what it holds afterwards does not depend on what it held before,
    it is the error of this call or nothing, and nothing when the call
    succeeds. Remove and ClearAll of the browser-only component do not touch
    the slot. *)
Theorem error_is_one_slot :
  (* Add, browser-only *)
  (forall env fileList st e,
      Local.error (Local.addFiles env fileList (Local.setError e st))
      = Local.error (Local.addFiles env fileList st)) /\
  (forall env files urls st,
      files <> [] -> Forall accepted files ->
      Forall2 (fun f url => Local.readFileAsDataURL f = Ok url) files urls ->
      Local.error (Local.addFiles env (Some files) st) = None) /\
  (* Remove and ClearAll, browser-only *)
  (forall i st, Local.error (Local.removePhoto i st) = Local.error st) /\
  (forall st ls, Local.error (Local.clearAll st ls).1 = Local.error st) /\
  (* Reload *)
  (forall fetch st e,
      Server.error (Server.loadPhotos fetch (Server.setError e st))
      = Server.error (Server.loadPhotos fetch st)) /\
  (forall fetch st data,
      Server.loadPhotos_try fetch = Ok data ->
      Server.error (Server.loadPhotos fetch st) = None) /\
  (* Add, server-backed *)
  (forall fetch fileList st e,
      Server.error (Server.uploadFiles fetch fileList (Server.setError e st))
      = Server.error (Server.uploadFiles fetch fileList st)) /\
  (forall fetch fileList st res data,
      images_of fileList <> [] -> within Server.MAX_IMAGE_BYTES (images_of fileList) ->
      fetch (Server.POST_photos (images_of fileList)) = Ok res -> Server.ok res = true ->
      Server.loadPhotos_try fetch = Ok data ->
      Server.error (Server.uploadFiles fetch fileList st) = None) /\
  (* Remove, server-backed *)
  (forall fetch i st e,
      Server.error (Server.deletePhoto fetch i (Server.setError e st))
      = Server.error (Server.deletePhoto fetch i st)) /\
  (forall fetch i st res,
      fetch (Server.DELETE_photo i) = Ok res ->
      Server.ok res || (Server.status res =? 204) = true ->
      Server.error (Server.deletePhoto fetch i st) = None).
Proof.
  repeat apply conj.
  - intros env fileList st e. unfold Local.addFiles. cbv zeta.
    destruct (List.filter _ _) as [|f files]; [reflexivity|].
    destruct (List.find _ _); [reflexivity|].
    destruct (Local.read_files _ _ _) as [next|]; [|reflexivity].
    destruct next as [|? [|? ?]]; reflexivity.
  - intros env files urls st Hne Hacc Hread. unfold Local.addFiles.
    change (Array_from (Some files)) with files. cbv zeta.
    destruct (accepted_batch files Hacc) as [-> ->].
    destruct files as [|f files']; [congruence|].
    rewrite (read_files_ok env (f :: files') urls 0 Hread).
    destruct (imap _ _) as [|? [|? ?]]; reflexivity.
  - apply removePhoto_error.
  - reflexivity.
  - intros fetch st e. rewrite !loadPhotos_error. reflexivity.
  - intros fetch st data Hload. rewrite loadPhotos_error, Hload. reflexivity.
  - intros fetch fileList st e. unfold Server.uploadFiles. cbv zeta.
    destruct (List.filter _ _) as [|f files]; [reflexivity|].
    destruct (List.find _ _); [reflexivity|].
    unfold Server.uploadFiles_try.
    destruct (fetch _) as [res|]; [|reflexivity].
    destruct (negb (Server.ok res)); [destruct (Server.text res); reflexivity|].
    cbn [Server.error Server.setBusy]. rewrite !loadPhotos_error. reflexivity.
  - intros fetch fileList st res data Hne Hsize Hres Hok Hload.
    rewrite (uploadFiles_sent fetch fileList st Hne Hsize).
    unfold Server.uploadFiles_try. rewrite Hres, Hok. cbn [negb Server.error Server.setBusy].
    rewrite loadPhotos_error, Hload. reflexivity.
  - intros fetch i st e. unfold Server.deletePhoto, Server.deletePhoto_try.
    destruct (fetch _) as [res|]; [|reflexivity].
    destruct (negb (Server.ok res) && negb (Server.status res =? 204)); [reflexivity|].
    cbn [Server.activeId Server.setBusy Server.setError].
    destruct (bool_decide _); reflexivity.
  - intros fetch i st res Hres Hok.
    pose proof (deletePhoto_ok fetch i st res Hres Hok) as H. exact H.
Qed.

(** ** JSON: the parser reads back what the serializer writes *)

(** *** Strings *)

Lemma hex_value_digit x : (x < 16)%N -> hex_value (hex_digit x) = Some x.
Proof.
  intros Hx.
  assert (H : (x = 0 \/ x = 1 \/ x = 2 \/ x = 3 \/ x = 4 \/ x = 5 \/ x = 6 \/ x = 7 \/
               x = 8 \/ x = 9 \/ x = 10 \/ x = 11 \/ x = 12 \/ x = 13 \/ x = 14 \/
               x = 15)%N) by lia.
  repeat (destruct H as [-> | H]; [reflexivity|]). subst x. reflexivity.
Qed.

Lemma hex_digits_value c :
  (c < 65536)%N ->
  (c / 4096 mod 16 * 4096 + c / 256 mod 16 * 256 + c / 16 mod 16 * 16 + c mod 16 = c)%N.
Proof.
  intros Hc.
  pose proof (N.div_mod c 16 ltac:(discriminate)).
  pose proof (N.div_mod (c / 16) 16 ltac:(discriminate)).
  pose proof (N.div_mod (c / 16 / 16) 16 ltac:(discriminate)).
  pose proof (N.mod_small (c / 16 / 16 / 16) 16) as Hsmall.
  assert (E256 : (c / 256 = c / 16 / 16)%N) by (rewrite N.Div0.div_div; reflexivity).
  assert (E4096 : (c / 4096 = c / 16 / 16 / 16)%N) by (rewrite !N.Div0.div_div; reflexivity).
  rewrite E256, E4096.
  assert (c / 16 / 16 / 16 < 16)%N.
  { rewrite !N.Div0.div_div. apply N.Div0.div_lt_upper_bound. exact Hc. }
  rewrite Hsmall by assumption.
  pose proof (N.mod_upper_bound c 16 ltac:(discriminate)).
  pose proof (N.mod_upper_bound (c / 16) 16 ltac:(discriminate)).
  pose proof (N.mod_upper_bound (c / 16 / 16) 16 ltac:(discriminate)).
  lia.
Qed.

Lemma parse_chars_UnicodeEscape c t :
  (c < 65536)%N ->
  parse_chars (UnicodeEscape c ++ t)
  = match parse_chars t with Some (s, r) => Some (c :: s, r) | None => None end.
Proof.
  intros Hc. unfold UnicodeEscape. cbn [app parse_chars].
  change (92 =? 34)%N with false. change (92 =? 92)%N with true.
  change (117 =? 117)%N with true. cbv iota.
  rewrite !hex_value_digit by (apply N.mod_upper_bound; discriminate).
  rewrite (hex_digits_value c Hc). reflexivity.
Qed.

Lemma parse_chars_raw c t :
  (c =? 34)%N = false -> (c =? 92)%N = false -> (c <? 32)%N = false ->
  parse_chars (c :: t)
  = match parse_chars t with Some (s, r) => Some (c :: s, r) | None => None end.
Proof. intros H1 H2 H3. cbn [parse_chars]. rewrite H1, H2, H3. reflexivity. Qed.

Lemma short_escape_Some c e :
  short_escape c = Some e ->
  (e =? 117)%N = false /\ escaped e = Some c.
Proof.
  unfold short_escape.
  repeat match goal with
         | |- context [N.eqb c ?k] => destruct (N.eqb_spec c k) as [-> | _]
         end; intros [= <-]; split; reflexivity.
Qed.

Lemma short_escape_None c :
  short_escape c = None -> (c =? 34)%N = false /\ (c =? 92)%N = false.
Proof.
  unfold short_escape.
  repeat match goal with
         | |- context [N.eqb c ?k] => destruct (N.eqb_spec c k) as [-> | ?]
         end; try discriminate.
  intros _. split; reflexivity.
Qed.

Lemma parse_chars_short c e t :
  short_escape c = Some e ->
  parse_chars (92%N :: e :: t)
  = match parse_chars t with Some (s, r) => Some (c :: s, r) | None => None end.
Proof.
  intros Hse. destruct (short_escape_Some c e Hse) as [Hu Hesc].
  cbn [parse_chars]. change (92 =? 34)%N with false. change (92 =? 92)%N with true.
  cbv iota. rewrite Hu, Hesc. reflexivity.
Qed.

Lemma surrogate_raw c :
  is_leading_surrogate c || is_trailing_surrogate c = true ->
  (c =? 34)%N = false /\ (c =? 92)%N = false /\ (c <? 32)%N = false /\ (c < 65536)%N.
Proof.
  unfold is_leading_surrogate, is_trailing_surrogate. intros H.
  apply orb_true_iff in H.
  rewrite !andb_true_iff, !N.leb_le in H.
  rewrite !N.eqb_neq, N.ltb_ge. lia.
Qed.

(** The parser reads a quoted string back. *)
Lemma parse_chars_quote_chars s : forall t,
  parse_chars (quote_chars s ++ 34%N :: t) = Some (s, t).
Proof.
  induction s as [s IH] using (induction_ltof1 _ (@length N)). unfold ltof in IH.
  intros t. destruct s as [|c s']; [reflexivity|].
  cbn [quote_chars].
  destruct (short_escape c) as [e|] eqn:Hse.
  { cbn [app]. rewrite (parse_chars_short c e _ Hse), IH by (simpl; lia). reflexivity. }
  destruct (short_escape_None c Hse) as [H34 H92].
  destruct (c <? 32)%N eqn:H32.
  { rewrite <- app_assoc, parse_chars_UnicodeEscape, IH by (simpl; lia || apply N.ltb_lt in H32; lia).
    reflexivity. }
  destruct (is_leading_surrogate c) eqn:Hlead.
  { destruct (surrogate_raw c) as (_ & _ & _ & Hc); [rewrite Hlead; reflexivity|].
    destruct s' as [|c2 s''].
    - rewrite parse_chars_UnicodeEscape by exact Hc. reflexivity.
    - destruct (is_trailing_surrogate c2) eqn:Htrail.
      + destruct (surrogate_raw c2) as (H34' & H92' & H32' & _);
          [rewrite Htrail; apply orb_true_r|].
        cbn [app]. rewrite (parse_chars_raw c _ H34 H92 H32).
        rewrite (parse_chars_raw c2 _ H34' H92' H32'), IH by (simpl; lia). reflexivity.
      + rewrite <- app_assoc, parse_chars_UnicodeEscape, IH by (simpl; lia || exact Hc).
        reflexivity. }
  destruct (is_trailing_surrogate c) eqn:Htrail.
  { destruct (surrogate_raw c) as (_ & _ & _ & Hc); [rewrite Htrail; apply orb_true_r|].
    rewrite <- app_assoc, parse_chars_UnicodeEscape, IH by (simpl; lia || exact Hc).
    reflexivity. }
  cbn [app]. rewrite (parse_chars_raw c _ H34 H92 H32), IH by (simpl; lia). reflexivity.
Qed.

Lemma QuoteJSONString_app s t :
  QuoteJSONString s ++ t = 34%N :: quote_chars s ++ 34%N :: t.
Proof. unfold QuoteJSONString. cbn [app]. rewrite <- app_assoc. reflexivity. Qed.

Lemma parse_value_string fuel s t :
  parse_value (S fuel) (QuoteJSONString s ++ t) = Some (JString s, t).
Proof.
  rewrite QuoteJSONString_app.
  change (parse_value (S fuel) (34%N :: quote_chars s ++ 34%N :: t))
    with ('(s', r) ← parse_chars (quote_chars s ++ 34%N :: t); Some (JString s', r)).
  rewrite parse_chars_quote_chars. reflexivity.
Qed.

(** *** Numbers *)

Lemma digit_cons_digit c : is_digit c -> exists D, digit_cons c = Some D.
Proof.
  unfold is_digit. intros Hc.
  assert (H : (c = 48 \/ c = 49 \/ c = 50 \/ c = 51 \/ c = 52 \/ c = 53 \/ c = 54 \/
               c = 55 \/ c = 56 \/ c = 57)%N) by lia.
  repeat (destruct H as [-> | H]; [eexists; reflexivity|]). subst c. eexists. reflexivity.
Qed.

Lemma span_digits_end t : number_end t -> span_digits t = (Nil, t).
Proof. destruct t as [|c t]; [reflexivity|]. intros (H & _). simpl. rewrite H. reflexivity. Qed.

Lemma span_digits_uint_chars u t :
  number_end t -> span_digits (uint_chars u ++ t) = (u, t).
Proof.
  intros Hend. induction u; cbn [uint_chars app];
    [apply span_digits_end, Hend | ..];
    cbn [span_digits]; rewrite IHu; reflexivity.
Qed.

Lemma nzhead_no_zero d : match nzhead d with D0 _ => False | _ => True end.
Proof. induction d; simpl; auto. Qed.

Lemma unorm_canonical d : is_Nil (unorm d) = false /\ leading_zero (unorm d) = false.
Proof.
  unfold unorm. pose proof (nzhead_no_zero d) as H.
  destruct (nzhead d); try (split; reflexivity). destruct H.
Qed.

Lemma to_uint_canonical n :
  is_Nil (N.to_uint n) = false /\ leading_zero (N.to_uint n) = false.
Proof.
  rewrite <- (DecimalN.Unsigned.of_to n) at 1 2.
  rewrite DecimalN.Unsigned.to_of. apply unorm_canonical.
Qed.

Lemma parse_fraction_end t : number_end t -> parse_fraction t = Some (Nil, t).
Proof.
  destruct t as [|c t]; [reflexivity|]. intros (_ & H & _). simpl. rewrite H. reflexivity.
Qed.

Lemma parse_exponent_end t : number_end t -> parse_exponent t = Some (0, t).
Proof.
  destruct t as [|c t]; [reflexivity|]. intros (_ & _ & H). simpl. rewrite H. reflexivity.
Qed.

Lemma uint_chars_head u c r :
  uint_chars u = c :: r -> is_digit c.
Proof. destruct u; simpl; intros [= <- _]; unfold is_digit; lia. Qed.

Lemma decimal_N_head n : exists c r, decimal_N n = c :: r /\ is_digit c.
Proof.
  destruct (decimal_N n) as [|c r] eqn:H.
  - destruct (decimal_N_nonnil n H).
  - exists c, r. split; [reflexivity|]. eapply uint_chars_head, H.
Qed.

Lemma Z_of_uint_to_uint n : Z.of_uint (N.to_uint n) = Z.of_N n.
Proof. unfold Z.of_uint. f_equal. apply DecimalN.Unsigned.of_to. Qed.

(** The digits of a natural number, read as a JSON number. *)
Lemma parse_unsigned_decimal negative n t :
  number_end t ->
  parse_unsigned negative (decimal_N n ++ t)
  = Some (JNumber (if negative then - Z.of_N n else Z.of_N n) 0, t).
Proof.
  intros Hend. unfold parse_unsigned, decimal_N.
  rewrite (span_digits_uint_chars _ t Hend).
  destruct (to_uint_canonical n) as [-> ->]. cbn [orb].
  rewrite (parse_fraction_end t Hend). cbn [mbind option_bind].
  rewrite (parse_exponent_end t Hend). cbn [mbind option_bind].
  rewrite DecimalFacts.app_nil_r, Z_of_uint_to_uint. reflexivity.
Qed.

Lemma parse_number_decimal z t :
  number_end t ->
  parse_number (decimal_Z z ++ t) = Some (JNumber z 0, t).
Proof.
  intros Hend. unfold decimal_Z.
  destruct (Z.ltb_spec z 0) as [Hneg|Hpos].
  - unfold parse_number. cbn [app]. change (45 =? 45)%N with true. cbv iota.
    rewrite (parse_unsigned_decimal true _ t Hend). do 2 f_equal. f_equal. lia.
  - destruct (decimal_N_head (Z.abs_N z)) as (c & r & Hhead & Hc).
    unfold parse_number. rewrite Hhead. cbn [app].
    replace (c =? 45)%N with false
      by (symmetry; apply N.eqb_neq; unfold is_digit in Hc; lia).
    change (c :: r ++ t) with ((c :: r) ++ t). rewrite <- Hhead.
    rewrite (parse_unsigned_decimal false _ t Hend). do 2 f_equal. f_equal. lia.
Qed.

Lemma Number_toString_safe z : isSafeInteger z = true -> Number_toString z = decimal_Z z.
Proof. intros H. unfold Number_toString. rewrite H. reflexivity. Qed.

Lemma Number_value_safe z : isSafeInteger z = true -> Number_value z = Some z.
Proof. intros H. unfold Number_value. rewrite H. reflexivity. Qed.

Lemma SerializeJSONNumber_safe z :
  isSafeInteger z = true -> Local.SerializeJSONNumber z = decimal_Z z.
Proof.
  intros H. unfold Local.SerializeJSONNumber.
  rewrite (Number_value_safe z H). apply Number_toString_safe, H.
Qed.

Lemma decimal_Z_head z : exists c r, decimal_Z z = c :: r /\ (c = 45%N \/ is_digit c).
Proof.
  unfold decimal_Z. destruct (z <? 0).
  - eexists _, _. split; [reflexivity | left; reflexivity].
  - destruct (decimal_N_head (Z.abs_N z)) as (c & r & H & Hc). eauto.
Qed.

Lemma startsWith_head c t (p : jstring) c' p' :
  p = c' :: p' -> c <> c' -> startsWith (c :: t) p = false.
Proof.
  intros -> Hne. unfold startsWith. apply bool_decide_eq_false_2.
  cbn [length take]. intros [= H _]. contradiction.
Qed.

(** A text that starts with a minus sign or a digit is read as a number. *)
Lemma parse_value_numeral fuel c t :
  c = 45%N \/ is_digit c ->
  parse_value (S fuel) (c :: t) = parse_number (c :: t).
Proof.
  intros Hc. unfold is_digit in Hc.
  assert (Hws : is_ws c = false).
  { unfold is_ws. rewrite !orb_false_iff, !N.eqb_neq. lia. }
  cbn [parse_value skip_ws]. rewrite Hws.
  replace (c =? 123)%N with false by (symmetry; apply N.eqb_neq; lia).
  replace (c =? 91)%N with false by (symmetry; apply N.eqb_neq; lia).
  replace (c =? 34)%N with false by (symmetry; apply N.eqb_neq; lia).
  unfold parse_literal.
  rewrite (startsWith_head c t (str "true") 116%N (str "rue")) by (reflexivity || lia).
  rewrite (startsWith_head c t (str "false") 102%N (str "alse")) by (reflexivity || lia).
  rewrite (startsWith_head c t (str "null") 110%N (str "ull")) by (reflexivity || lia).
  reflexivity.
Qed.

Lemma parse_value_number fuel z t :
  isSafeInteger z = true -> number_end t ->
  parse_value (S fuel) (Local.SerializeJSONNumber z ++ t) = Some (JNumber z 0, t).
Proof.
  intros Hsafe Hend. rewrite (SerializeJSONNumber_safe z Hsafe).
  destruct (decimal_Z_head z) as (c & r & Hhead & Hc).
  rewrite <- (parse_number_decimal z t Hend). rewrite Hhead. cbn [app].
  apply parse_value_numeral, Hc.
Qed.

(** *** Objects and arrays *)

Lemma parse_members_unfold fuel key rest :
  parse_members (S fuel) (QuoteJSONString key ++ 58%N :: rest)
  = '(v, r3) ← parse_value fuel rest;
    match skip_ws r3 with
    | c3 :: r4 =>
        if (c3 =? 44)%N then
          '(ms, r5) ← parse_members fuel r4; Some ((key, v) :: ms, r5)
        else if (c3 =? 125)%N then Some ([(key, v)], r4)
        else None
    | [] => None
    end.
Proof.
  rewrite QuoteJSONString_app.
  change (parse_members (S fuel) (34%N :: quote_chars key ++ 34%N :: 58%N :: rest))
    with ('(k, r) ← parse_chars (quote_chars key ++ 34%N :: 58%N :: rest);
          match skip_ws r with
          | c2 :: r2 =>
              if (c2 =? 58)%N then
                '(v, r3) ← parse_value fuel r2;
                match skip_ws r3 with
                | c3 :: r4 =>
                    if (c3 =? 44)%N then
                      '(ms, r5) ← parse_members fuel r4; Some ((k, v) :: ms, r5)
                    else if (c3 =? 125)%N then Some ([(k, v)], r4)
                    else None
                | [] => None
                end
              else None
          | [] => None
          end).
  rewrite parse_chars_quote_chars. reflexivity.
Qed.

Lemma parse_members_more fuel key v rest r ms r' :
  parse_value fuel rest = Some (v, 44%N :: r) ->
  parse_members fuel r = Some (ms, r') ->
  parse_members (S fuel) (QuoteJSONString key ++ 58%N :: rest) = Some ((key, v) :: ms, r').
Proof.
  intros Hv Hms. rewrite parse_members_unfold, Hv. cbn [mbind option_bind skip_ws].
  change (is_ws 44) with false. change (44 =? 44)%N with true. cbv iota.
  rewrite Hms. reflexivity.
Qed.

Lemma parse_members_last fuel key v rest r :
  parse_value fuel rest = Some (v, 125%N :: r) ->
  parse_members (S fuel) (QuoteJSONString key ++ 58%N :: rest) = Some ([(key, v)], r).
Proof.
  intros Hv. rewrite parse_members_unfold, Hv. reflexivity.
Qed.

Lemma SerializeJSONObject_app p t :
  Local.SerializeJSONObject p ++ t
  = 123%N :: QuoteJSONString (str "id") ++ 58%N :: QuoteJSONString (Local.id p) ++
    44%N :: QuoteJSONString (str "name") ++ 58%N :: QuoteJSONString (Local.name p) ++
    44%N :: QuoteJSONString (str "type") ++ 58%N :: QuoteJSONString (Local.type p) ++
    44%N :: QuoteJSONString (str "size") ++ 58%N :: Local.SerializeJSONNumber (Local.size p) ++
    44%N :: QuoteJSONString (str "createdAt") ++ 58%N :: Local.SerializeJSONNumber (Local.createdAt p) ++
    44%N :: QuoteJSONString (str "dataUrl") ++ 58%N :: QuoteJSONString (Local.dataUrl p) ++
    125%N :: t.
Proof.
  unfold Local.SerializeJSONObject, Local.member.
  change (str "{") with [123%N]. change (str ",") with [44%N].
  change (str ":") with [58%N]. change (str "}") with [125%N].
  repeat (rewrite <- ?app_assoc; cbn [app]). reflexivity.
Qed.

Lemma number_end_comma t : number_end (44%N :: t).
Proof. repeat split. Qed.

Lemma parse_value_object_open fuel t :
  parse_value (S fuel) (123%N :: QuoteJSONString (str "id") ++ t)
  = '(ms, r) ← parse_members fuel (QuoteJSONString (str "id") ++ t); Some (JObject ms, r).
Proof. reflexivity. Qed.

(** The parser reads the text of a [PhotoItem] back, whatever follows it. *)
Lemma parse_value_PhotoItem fuel p t :
  exact_numbers p -> (8 <= fuel)%nat ->
  parse_value fuel (Local.SerializeJSONObject p ++ t) = Some (PhotoItem_value p, t).
Proof.
  intros [Hsize Hcreated] Hfuel.
  do 8 (destruct fuel as [|fuel]; [lia|]). clear Hfuel.
  rewrite SerializeJSONObject_app, parse_value_object_open.
  erewrite parse_members_more; [reflexivity | apply parse_value_string |].
  erewrite parse_members_more; [reflexivity | apply parse_value_string |].
  erewrite parse_members_more; [reflexivity | apply parse_value_string |].
  erewrite parse_members_more;
    [reflexivity | apply parse_value_number; [exact Hsize | apply number_end_comma] |].
  erewrite parse_members_more;
    [reflexivity | apply parse_value_number; [exact Hcreated | apply number_end_comma] |].
  apply parse_members_last, parse_value_string.
Qed.

Lemma SerializeJSONObject_head p :
  exists r, Local.SerializeJSONObject p
            = 123%N :: 34%N :: 105%N :: 100%N :: 34%N :: 58%N :: 34%N :: r.
Proof. eexists. reflexivity. Qed.

Lemma elements_text_cons p ps :
  Local.elements_text (p :: ps)
  = Local.SerializeJSONObject p
      ++ match ps with [] => [] | _ :: _ => 44%N :: Local.elements_text ps end.
Proof. destruct ps; cbn [Local.elements_text]; [rewrite app_nil_r|]; reflexivity. Qed.

Lemma elements_text_length ps : (7 * length ps <= length (Local.elements_text ps))%nat.
Proof.
  induction ps as [|p ps IH]; [simpl; lia|].
  rewrite elements_text_cons, length_app.
  destruct (SerializeJSONObject_head p) as [r ->].
  destruct ps; cbn [length] in *; lia.
Qed.

Lemma parse_elements_text ps : forall fuel t,
  ps <> [] -> Forall exact_numbers ps -> (length ps + 8 <= fuel)%nat ->
  parse_elements fuel (Local.elements_text ps ++ 93%N :: t)
  = Some (PhotoItem_value <$> ps, t).
Proof.
  induction ps as [|p ps IH]; intros fuel t Hne Hexact Hfuel; [congruence|].
  apply Forall_cons in Hexact as [Hp Hps].
  destruct fuel as [|fuel]; [simpl in Hfuel; lia|]. simpl in Hfuel.
  rewrite elements_text_cons, <- app_assoc.
  cbn [parse_elements].
  rewrite (parse_value_PhotoItem fuel p _ Hp) by lia.
  cbn [mbind option_bind].
  destruct ps as [|p' ps'].
  - reflexivity.
  - cbn [app skip_ws]. change (is_ws 44) with false. change (44 =? 44)%N with true.
    cbv iota. rewrite (IH fuel t); [reflexivity | congruence | assumption |].
    cbn [length] in *. lia.
Qed.

(** [JSON.parse] reads back what [JSON.stringify] writes for a sequence. *)
Lemma JSON_parse_stringify ps :
  Forall exact_numbers ps ->
  JSON_parse (Local.JSON_stringify ps) = Some (JArray (PhotoItem_value <$> ps)).
Proof.
  intros Hexact. destruct ps as [|p ps]; [vm_compute; reflexivity|].
  unfold JSON_parse, Local.JSON_stringify.
  change (str "[") with [91%N]. change (str "]") with [93%N]. cbn [app].
  pose proof (elements_text_length (p :: ps)) as Hlen.
  set (text := Local.elements_text (p :: ps)) in *.
  assert (Hfuel : (length (p :: ps) + 8 <= 2 * length (91%N :: text ++ [93%N]) + 1)%nat).
  { cbn [length] in *. rewrite length_app. cbn [length]. lia. }
  replace (2 * length (91%N :: text ++ [93%N]) + 2)%nat
    with (S (2 * length (91%N :: text ++ [93%N]) + 1)) by lia.
  set (fuel := (2 * length (91%N :: text ++ [93%N]) + 1)%nat) in *.
  assert (Hhead : exists r, text = 123%N :: r).
  { subst text. rewrite elements_text_cons.
    destruct (SerializeJSONObject_head p) as [r ->]. eexists. reflexivity. }
  destruct Hhead as [r Hr].
  assert (Hopen : parse_value (S fuel) (91%N :: text ++ [93%N])
                  = '(vs, r) ← parse_elements fuel (text ++ [93%N]); Some (JArray vs, r)).
  { rewrite Hr. reflexivity. }
  rewrite Hopen. subst text.
  rewrite (parse_elements_text (p :: ps) fuel []) by (congruence || assumption).
  reflexivity.
Qed.

Lemma integral_integer z : integral z 0 = Some z.
Proof. unfold integral. cbn. f_equal. lia. Qed.

Lemma asPhotoItem_value p :
  exact_numbers p -> Local.asPhotoItem (PhotoItem_value p) = Some p.
Proof.
  intros [Hsize Hcreated]. unfold Local.asPhotoItem, Local.PhotoItem_value.
  rewrite bool_decide_eq_true_2 by reflexivity.
  rewrite !integral_integer. cbn [mbind option_bind].
  rewrite (Number_value_safe _ Hsize), (Number_value_safe _ Hcreated).
  destruct p; reflexivity.
Qed.

Lemma asPhotoItems_values ps :
  Forall exact_numbers ps -> mapM Local.asPhotoItem (PhotoItem_value <$> ps) = Some ps.
Proof.
  intros Hexact. apply mapM_Some_2.
  induction Hexact as [|p ps Hp _ IH]; constructor; [apply asPhotoItem_value, Hp | exact IH].
Qed.

(** The values of a state read back at the declared type give the state. *)
Lemma typed_runtime st :
  Forall exact_numbers (Local.photos st) -> Local.typed (Local.runtime st) = Some st.
Proof.
  intros Hexact. unfold Local.typed, Local.runtime. cbn [Local.values].
  rewrite (asPhotoItems_values _ Hexact). destruct st; reflexivity.
Qed.

(** *** The fuel of the parser *)

Lemma skip_ws_length t : (length (skip_ws t) <= length t)%nat.
Proof. induction t as [|c t IH]; simpl; [lia|]. destruct (is_ws c); simpl; lia. Qed.

Lemma skip_ws_cons t c t' : skip_ws t = c :: t' -> (length t' < length t)%nat.
Proof. intros H. pose proof (skip_ws_length t) as Hlen. rewrite H in Hlen. simpl in Hlen. lia. Qed.

Lemma parse_chars_length t : forall s r,
  parse_chars t = Some (s, r) -> (length r < length t)%nat.
Proof.
  induction t as [t IH] using (induction_ltof1 _ (@length N)). unfold ltof in IH.
  intros s r. destruct t as [|c t']; [discriminate|]. cbn [parse_chars].
  destruct (c =? 34)%N; [intros [= <- <-]; simpl; lia|].
  destruct (c =? 92)%N.
  - destruct t' as [|e t'']; [discriminate|].
    destruct (e =? 117)%N.
    + destruct t'' as [|h1 [|h2 [|h3 [|h4 t3]]]]; try discriminate.
      destruct (hex_value h1), (hex_value h2), (hex_value h3), (hex_value h4);
        try discriminate.
      destruct (parse_chars t3) as [[s' r']|] eqn:Hrest; [|discriminate].
      intros [= <- <-]. apply IH in Hrest; simpl in *; lia.
    + destruct (escaped e); [|discriminate].
      destruct (parse_chars t'') as [[s' r']|] eqn:Hrest; [|discriminate].
      intros [= <- <-]. apply IH in Hrest; simpl in *; lia.
  - destruct (c <? 32)%N; [discriminate|].
    destruct (parse_chars t') as [[s' r']|] eqn:Hrest; [|discriminate].
    intros [= <- <-]. apply IH in Hrest; simpl in *; lia.
Qed.

Lemma span_digits_length t : forall u r,
  span_digits t = (u, r) -> (length r + nb_digits u = length t)%nat.
Proof.
  induction t as [|c t IH]; intros u r; cbn [span_digits].
  - intros [= <- <-]. reflexivity.
  - destruct (digit_cons c) as [D|] eqn:HD.
    + destruct (span_digits t) as [u' r'] eqn:Hspan. intros [= <- <-].
      specialize (IH _ _ eq_refl). unfold digit_cons in HD.
      repeat match type of HD with
             | (if ?b then _ else _) = _ => destruct b
             end; try discriminate; injection HD as <-; simpl; lia.
    + intros [= <- <-]. simpl. lia.
Qed.

Lemma parse_fraction_length t fp r :
  parse_fraction t = Some (fp, r) -> (length r <= length t)%nat.
Proof.
  destruct t as [|c t']; cbn [parse_fraction]; [intros [= <- <-]; lia|].
  destruct (c =? 46)%N; [|intros [= <- <-]; lia].
  destruct (span_digits t') as [u r'] eqn:Hspan. apply span_digits_length in Hspan.
  destruct (is_Nil u); [discriminate|]. intros [= <- <-]. simpl. lia.
Qed.

Lemma parse_exponent_length t ex r :
  parse_exponent t = Some (ex, r) -> (length r <= length t)%nat.
Proof.
  destruct t as [|c t']; cbn [parse_exponent]; [intros [= <- <-]; lia|].
  destruct ((c =? 101)%N || (c =? 69)%N); [|intros [= <- <-]; lia].
  assert (Hsign : forall (neg : bool) (t'' : jstring),
             (length t'' <= length t')%nat ->
             (let '(ep, r0) := span_digits t'' in
              if is_Nil ep then None
              else Some (if neg then - Z.of_uint ep else Z.of_uint ep, r0) : option (Z * jstring))
             = Some (ex, r) -> (length r <= length (c :: t'))%nat).
  { intros neg t'' Hle. destruct (span_digits t'') as [u r'] eqn:Hspan.
    apply span_digits_length in Hspan.
    destruct (is_Nil u); [discriminate|]. intros [= <- <-]. simpl. lia. }
  destruct t' as [|sg t'']; [apply (Hsign false []); simpl; lia|].
  destruct (sg =? 45)%N; [apply (Hsign true t''); simpl; lia|].
  destruct (sg =? 43)%N; [apply (Hsign false t''); simpl; lia|].
  apply (Hsign false (sg :: t'')). lia.
Qed.

Lemma parse_unsigned_length negative t v r :
  parse_unsigned negative t = Some (v, r) -> (length r < length t)%nat.
Proof.
  unfold parse_unsigned.
  destruct (span_digits t) as [ip r1] eqn:Hspan. apply span_digits_length in Hspan.
  destruct (is_Nil ip) eqn:Hnil; [discriminate|]. cbn [orb].
  destruct (leading_zero ip); [discriminate|].
  destruct (parse_fraction r1) as [[fp r2]|] eqn:Hfrac; [|discriminate].
  cbn [mbind option_bind].
  destruct (parse_exponent r2) as [[ex r3]|] eqn:Hexp; [|discriminate].
  cbn [mbind option_bind]. intros [= _ <-].
  apply parse_fraction_length in Hfrac. apply parse_exponent_length in Hexp.
  destruct ip; [discriminate| ..]; simpl in Hspan; lia.
Qed.

Lemma parse_number_length t v r :
  parse_number t = Some (v, r) -> (length r < length t)%nat.
Proof.
  destruct t as [|c t']; [discriminate|]. cbn [parse_number].
  destruct (c =? 45)%N; intros H; apply parse_unsigned_length in H; simpl in *; lia.
Qed.

Lemma startsWith_length t (p : jstring) :
  startsWith t p = true -> (length p <= length t)%nat.
Proof.
  unfold startsWith. intros H. apply bool_decide_eq_true in H.
  apply (f_equal length) in H. rewrite length_take in H. lia.
Qed.

Lemma parse_literal_length t v r :
  parse_literal t = Some (v, r) -> (length r < length t)%nat.
Proof.
  unfold parse_literal.
  destruct (startsWith t (str "true")) eqn:H1;
    [apply startsWith_length in H1; intros [= _ <-]; rewrite length_drop; simpl in H1; lia|].
  destruct (startsWith t (str "false")) eqn:H2;
    [apply startsWith_length in H2; intros [= _ <-]; rewrite length_drop; simpl in H2; lia|].
  destruct (startsWith t (str "null")) eqn:H3;
    [apply startsWith_length in H3; intros [= _ <-]; rewrite length_drop; simpl in H3; lia|].
  apply parse_number_length.
Qed.

Lemma parse_fuel_enough f :
  fuel_enough parse_value f /\ fuel_enough parse_elements f /\ fuel_enough parse_members f.
Proof.
  induction f as [|f (IHv & IHe & IHm)]; [repeat split; discriminate|].
  split; [|split]; intros t a r H.
  - (* a value *)
    cbn [parse_value] in H.
    destruct (skip_ws t) as [|c t'] eqn:Hsk; [discriminate|].
    pose proof (skip_ws_cons t c t' Hsk) as Hlen.
    destruct (c =? 123)%N eqn:Hobj.
    { destruct (skip_ws t') as [|c' r0] eqn:Hsk'; [discriminate|].
      pose proof (skip_ws_cons t' c' r0 Hsk') as Hlen'.
      destruct (c' =? 125)%N eqn:Hclose.
      - injection H as <- <-. split; [lia|]. intros [|f'] Hf'; [lia|].
        cbn [parse_value]. rewrite Hsk, Hobj, Hsk', Hclose. reflexivity.
      - destruct (parse_members f t') as [[ms r1]|] eqn:Hm; [|discriminate].
        injection H as <- <-. destruct (IHm _ _ _ Hm) as [Hr Hfuel].
        split; [lia|]. intros [|f'] Hf'; [lia|].
        cbn [parse_value]. rewrite Hsk, Hobj, Hsk', Hclose, (Hfuel f') by lia. reflexivity. }
    destruct (c =? 91)%N eqn:Harr.
    { destruct (skip_ws t') as [|c' r0] eqn:Hsk'; [discriminate|].
      pose proof (skip_ws_cons t' c' r0 Hsk') as Hlen'.
      destruct (c' =? 93)%N eqn:Hclose.
      - injection H as <- <-. split; [lia|]. intros [|f'] Hf'; [lia|].
        cbn [parse_value]. rewrite Hsk, Hobj, Harr, Hsk', Hclose. reflexivity.
      - destruct (parse_elements f t') as [[vs r1]|] eqn:He; [|discriminate].
        injection H as <- <-. destruct (IHe _ _ _ He) as [Hr Hfuel].
        split; [lia|]. intros [|f'] Hf'; [lia|].
        cbn [parse_value].
        rewrite Hsk, Hobj, Harr, Hsk', Hclose, (Hfuel f') by lia. reflexivity. }
    destruct (c =? 34)%N eqn:Hstr.
    { destruct (parse_chars t') as [[s r1]|] eqn:Hs; [|discriminate].
      injection H as <- <-. apply parse_chars_length in Hs as Hr.
      split; [lia|]. intros [|f'] Hf'; [lia|].
      cbn [parse_value]. rewrite Hsk, Hobj, Harr, Hstr, Hs. reflexivity. }
    apply parse_literal_length in H as Hr. simpl in Hr.
    split; [lia|]. intros [|f'] Hf'; [lia|].
    cbn [parse_value]. rewrite Hsk, Hobj, Harr, Hstr. exact H.
  - (* the elements of an array *)
    cbn [parse_elements] in H.
    destruct (parse_value f t) as [[v r1]|] eqn:Hv; [|discriminate].
    cbn [mbind option_bind] in H. destruct (IHv _ _ _ Hv) as [Hr1 Hfuel1].
    destruct (skip_ws r1) as [|c r'] eqn:Hsk; [discriminate|].
    pose proof (skip_ws_cons r1 c r' Hsk) as Hlen.
    destruct (c =? 44)%N eqn:Hcomma.
    + destruct (parse_elements f r') as [[vs r2]|] eqn:He; [|discriminate].
      injection H as <- <-. destruct (IHe _ _ _ He) as [Hr2 Hfuel2].
      split; [lia|]. intros [|f'] Hf'; [lia|].
      cbn [parse_elements]. rewrite (Hfuel1 f') by lia. cbn [mbind option_bind].
      rewrite Hsk, Hcomma, (Hfuel2 f') by lia. reflexivity.
    + destruct (c =? 93)%N eqn:Hclose; [|discriminate].
      injection H as <- <-. split; [lia|]. intros [|f'] Hf'; [lia|].
      cbn [parse_elements]. rewrite (Hfuel1 f') by lia. cbn [mbind option_bind].
      rewrite Hsk, Hcomma, Hclose. reflexivity.
  - (* the members of an object *)
    cbn [parse_members] in H.
    destruct (skip_ws t) as [|c t1] eqn:Hsk0; [discriminate|].
    pose proof (skip_ws_cons t c t1 Hsk0) as Hlen0.
    destruct (c =? 34)%N eqn:Hquote; [|discriminate].
    destruct (parse_chars t1) as [[k r0]|] eqn:Hk; [|discriminate].
    cbn [mbind option_bind] in H. apply parse_chars_length in Hk as Hr0.
    destruct (skip_ws r0) as [|c2 r2] eqn:Hsk2; [discriminate|].
    pose proof (skip_ws_cons r0 c2 r2 Hsk2) as Hlen2.
    destruct (c2 =? 58)%N eqn:Hcolon; [|discriminate].
    destruct (parse_value f r2) as [[v r3]|] eqn:Hv; [|discriminate].
    cbn [mbind option_bind] in H. destruct (IHv _ _ _ Hv) as [Hr3 Hfuel3].
    destruct (skip_ws r3) as [|c3 r4] eqn:Hsk3; [discriminate|].
    pose proof (skip_ws_cons r3 c3 r4 Hsk3) as Hlen3.
    destruct (c3 =? 44)%N eqn:Hcomma.
    + destruct (parse_members f r4) as [[ms r5]|] eqn:Hm; [|discriminate].
      injection H as <- <-. destruct (IHm _ _ _ Hm) as [Hr5 Hfuel5].
      split; [lia|]. intros [|f'] Hf'; [lia|].
      cbn [parse_members]. rewrite Hsk0, Hquote, Hk. cbn [mbind option_bind].
      rewrite Hsk2, Hcolon, (Hfuel3 f') by lia. cbn [mbind option_bind].
      rewrite Hsk3, Hcomma, (Hfuel5 f') by lia. reflexivity.
    + destruct (c3 =? 125)%N eqn:Hclose; [|discriminate].
      injection H as <- <-. split; [lia|]. intros [|f'] Hf'; [lia|].
      cbn [parse_members]. rewrite Hsk0, Hquote, Hk. cbn [mbind option_bind].
      rewrite Hsk2, Hcolon, (Hfuel3 f') by lia. cbn [mbind option_bind].
      rewrite Hsk3, Hcomma, Hclose. reflexivity.
Qed.

(** The fuel [JSON.parse] gives to the parser is never what makes it fail:
    a text that is read with some fuel is read by [JSON_parse]. *)
Lemma JSON_parse_fuel text f v :
  match parse_value f text with
  | Some (v', r) => skip_ws r = [] /\ v' = v
  | None => False
  end ->
  JSON_parse text = Some v.
Proof.
  destruct (parse_value f text) as [[v' r]|] eqn:Hparse; [|intros []].
  intros [Hend ->]. unfold JSON_parse.
  destruct (parse_fuel_enough f) as (Hv & _ & _).
  destruct (Hv _ _ _ Hparse) as [_ Hfuel].
  rewrite (Hfuel (2 * length text + 2)%nat) by lia. rewrite Hend. reflexivity.
Qed.

(** ** The browser-only component: persistence *)

Lemma JSON_stringify_truthy ps : truthy (Local.JSON_stringify ps) = true.
Proof. reflexivity. Qed.

(** Loading an entry that holds the text of a sequence installs the values
    of that sequence. *)
Lemma loadEffect_stored items quota ps st :
  items !! Local.STORAGE_KEY = Some (Local.JSON_stringify ps) ->
  Forall exact_numbers ps ->
  Local.loadEffect (Open items quota) st = Local.runtime (Local.setPhotos ps st).
Proof.
  intros Hraw Hexact. unfold Local.loadEffect. cbn [getItem]. rewrite Hraw.
  rewrite JSON_stringify_truthy, (JSON_parse_stringify ps Hexact). reflexivity.
Qed.

Lemma setItem_Ok ls key value ls' :
  setItem ls key value = Ok ls' ->
  exists items quota, ls = Open items quota /\ ls' = Open (<[key := value]> items) quota.
Proof.
  destruct ls as [|items quota]; cbn [setItem]; [discriminate|].
  destruct (storage_used _ <=? quota)%nat; [|discriminate].
  intros [= <-]. eauto.
Qed.

(** C5 (as stated) fails: a sequence the storage does not accept. The text
    of a gallery of 30 photos does not fit a storage with room for 100
    characters: the write is refused, the save effect drops the exception,
    the storage stays empty and a load from it shows no photo. *)
Lemma saveEffect_refused_not_reloaded :
  Local.saveEffect full_gallery (Open ∅ 100) = Open ∅ 100 /\
  Local.typed (Local.loadEffect (Local.saveEffect full_gallery (Open ∅ 100)) Local.initial)
  = Some Local.initial /\
  Local.photos <$>
    Local.typed (Local.loadEffect (Local.saveEffect full_gallery (Open ∅ 100)) Local.initial)
  <> Some (Local.photos full_gallery).
Proof.
  assert (Hsave : Local.saveEffect full_gallery (Open ∅ 100) = Open ∅ 100)
    by (vm_compute; reflexivity).
  rewrite Hsave. split; [reflexivity|]. split; [reflexivity|].
  vm_compute. discriminate.
Qed.

(** C5 (as amended). When the save effect has written the sequence (the
    storage accepted the entry), the entry is the text of the sequence and a
    load from that storage, into any state, installs a sequence equal to the
    one written: the same records, with the same identifiers, names,
    payloads and all other fields, in the same order. The sizes and
    timestamps are integers below 2^53 in magnitude, as every [File.size] and
    every [Date.now()] is. The loaded state is given as the run-time holds it
    and at the declared type. *)
Theorem persistence_round_trip (st : Local.State) (ls ls' : Storage) (fresh : Local.State) :
  Forall exact_numbers (Local.photos st) ->
  setItem ls Local.STORAGE_KEY (Local.JSON_stringify (Local.photos st)) = Ok ls' ->
  Local.saveEffect st ls = ls' /\
  getItem ls' Local.STORAGE_KEY = Ok (Some (Local.JSON_stringify (Local.photos st))) /\
  Local.loadEffect ls' fresh = Local.runtime (Local.setPhotos (Local.photos st) fresh) /\
  Local.typed (Local.loadEffect ls' fresh) = Some (Local.setPhotos (Local.photos st) fresh) /\
  Local.photos <$> Local.typed (Local.loadEffect ls' Local.initial) = Some (Local.photos st).
Proof.
  intros Hexact Hset.
  split; [unfold Local.saveEffect; rewrite Hset; reflexivity|].
  apply setItem_Ok in Hset as (items & quota & -> & ->).
  split; [cbn [getItem]; rewrite lookup_insert_eq; reflexivity|].
  assert (Hload : forall into,
             Local.loadEffect
               (Open (<[Local.STORAGE_KEY := Local.JSON_stringify (Local.photos st)]> items)
                     quota) into
             = Local.runtime (Local.setPhotos (Local.photos st) into)).
  { intros into. apply loadEffect_stored; [apply lookup_insert_eq | exact Hexact]. }
  split; [apply Hload|]. rewrite !Hload, !typed_runtime by exact Hexact.
  split; reflexivity.
Qed.

Lemma sample_photos_exact n :
  (n <= 100)%nat -> Forall exact_numbers (sample_photo <$> seq 0 n).
Proof.
  intros Hn. apply Forall_fmap, Forall_forall. intros k Hk.
  apply elem_of_seq in Hk. split; cbn [Local.size Local.createdAt sample_photo].
  - reflexivity.
  - unfold isSafeInteger. apply Z.leb_le.
    change (2 ^ 53 - 1) with 9007199254740991. lia.
Qed.

(** Saving a gallery of 30 photos into an empty storage and loading it. *)
Lemma persistence_round_trip_witness :
  Local.photos <$>
    Local.typed
      (Local.loadEffect (Local.saveEffect full_gallery (Open ∅ (100 * 100))) Local.initial)
  = Some (Local.photos full_gallery).
Proof.
  destruct (persistence_round_trip full_gallery (Open ∅ (100 * 100))
              (Open {[ Local.STORAGE_KEY := Local.JSON_stringify (Local.photos full_gallery) ]}
                    (100 * 100))
              Local.initial) as (Hsave & _ & _ & _ & Hload).
  - apply (sample_photos_exact 30). lia.
  - vm_compute. reflexivity.
  - rewrite Hsave. exact Hload.
Defined.

(** ** The limit of 30 photos *)




(** The load effect installs any array: numbers, and a record whose members
    come in another order, which is no state of the declared type with the
    members in the order of [addFiles]. *)
Example loadEffect_any_array :
  Local.values (Local.loadEffect (Open {[ Local.STORAGE_KEY := str "[1,2]" ]} 100)
                  Local.initial)
  = [JNumber 1 0; JNumber 2 0].
Proof. vm_compute. reflexivity. Qed.

Example loadEffect_other_order :
  Local.values
    (Local.loadEffect
       (Open {[ Local.STORAGE_KEY :=
                  str "[{" ++ Local.member "name" (QuoteJSONString (str "a.png"))
                    ++ str "," ++ Local.member "id" (QuoteJSONString (str "7"))
                    ++ str "}]" ]} 100)
       Local.initial)
  = [JObject [(str "name", JString (str "a.png")); (str "id", JString (str "7"))]].
Proof. vm_compute. reflexivity. Qed.

(** A timestamp of 2^53 is written with all its digits and read back. *)
Example typed_2_pow_53 :
  let st := Local.setPhotos
              [{| Local.id := str "7"; Local.name := str "a.png";
                  Local.type := str "image/png"; Local.size := 2048;
                  Local.createdAt := 2 ^ 53; Local.dataUrl := sample_url |}]
              Local.initial in
  Local.typed (Local.loadEffect (Local.saveEffect st (Open ∅ 1000)) Local.initial) = Some st.
Proof. vm_compute. reflexivity. Qed.




(** A deletion the server accepts and a batch the component accepts leave
    no error. *)
Lemma error_is_one_slot_witness :
  Server.error (Server.deletePhoto obliging_server 2 sample_remote_state) = None /\
  Local.error (Local.addFiles sample_browser (Some [sample_file]) full_gallery) = None.
Proof.
  destruct error_is_one_slot as (_ & Hadd & _ & _ & _ & _ & _ & _ & _ & Hdelete). split.
  - apply (Hdelete obliging_server 2 sample_remote_state
             {| Server.status := 204; Server.text := Ok [];
                Server.json_body := Throw (str "Unexpected end of JSON input") |});
      reflexivity.
  - apply (Hadd sample_browser [sample_file] [sample_url] full_gallery).
    + discriminate.
    + repeat constructor. vm_compute. discriminate.
    + repeat constructor.
Defined.

(** * Further properties of the browser-only component *)

(** ** What [addFiles] does, case by case *)

Lemma read_files_Ok env files : forall k next,
  Local.read_files env k files = Ok next ->
  Forall2 (fun f p => Local.name p = file_name f /\ Local.type p = file_type f /\
                      Local.size p = file_size f /\
                      Local.readFileAsDataURL f = Ok (Local.dataUrl p)) files next /\
  Local.id <$> next = Local.randomUUID env <$> seq k (length files).
Proof.
  induction files as [|f files IH]; intros k next; cbn [Local.read_files].
  - intros [= <-]. split; [constructor | reflexivity].
  - destruct (Local.readFileAsDataURL f) as [url|] eqn:Hf; [|discriminate].
    destruct (Local.read_files env (S k) files) as [rest|] eqn:Hrest; [|discriminate].
    intros [= <-]. destruct (IH _ _ Hrest) as [Hall Hids]. split.
    + constructor; [repeat split; assumption | exact Hall].
    + cbn [length seq fmap list_fmap]. cbn [Local.id]. f_equal. exact Hids.
Qed.

Lemma read_files_Throw env files : forall k,
  Exists (fun f => exists e, Local.readFileAsDataURL f = Throw e) files ->
  exists e, Local.read_files env k files = Throw e.
Proof.
  induction files as [|f files IH]; intros k Hex; [inversion Hex|].
  cbn [Local.read_files].
  destruct (Local.readFileAsDataURL f) as [url|e] eqn:Hf; [|eauto].
  apply Exists_cons in Hex as [[e He] | Hex]; [congruence|].
  destruct (IH (S k) Hex) as [e ->]. eauto.
Qed.

Lemma find_within limit files :
  within limit files -> List.find (fun f => file_size f >? limit) files = None.
Proof.
  intros Hsize. apply find_all_false. eapply Forall_impl; [exact Hsize|]. intros f Hf.
  rewrite Z.gtb_ltb. apply Z.ltb_ge. exact Hf.
Qed.

Lemma find_None_within limit files :
  List.find (fun f => file_size f >? limit) files = None -> within limit files.
Proof.
  intros Hfind. apply Forall_forall. intros f Hf.
  pose proof (List.find_none _ _ Hfind f (proj1 (list_elem_of_In _ _) Hf)) as H.
  cbv beta in H. rewrite Z.gtb_ltb in H. apply Z.ltb_ge in H. exact H.
Qed.

(** The four ways a call of [addFiles] ends. *)
Lemma addFiles_cases env fileList st :
  let st' := Local.addFiles env fileList st in
  (images_of fileList = [] /\
   st' = Local.setError (Some (str "Please select an image file (JPG/PNG/WebP/GIF)."))
           (Local.setError None st)) \/
  (exists tooBig,
      List.find (fun f => file_size f >? Local.MAX_IMAGE_BYTES) (images_of fileList)
      = Some tooBig /\
      st' = Local.setError (Some (Local.too_large tooBig)) (Local.setError None st)) \/
  (images_of fileList <> [] /\ within Local.MAX_IMAGE_BYTES (images_of fileList) /\
   (exists e, Local.read_files env 0 (images_of fileList) = Throw e) /\
   st' = Local.setError None st) \/
  (images_of fileList <> [] /\ within Local.MAX_IMAGE_BYTES (images_of fileList) /\
   exists next,
     Local.read_files env 0 (images_of fileList) = Ok next /\
     Local.photos st' = take 30 (next ++ Local.photos st) /\
     Local.error st' = None /\
     Local.activeId st'
     = match next with [item] => Some (Local.id item) | _ => Local.activeId st end).
Proof.
  cbv zeta. unfold Local.addFiles. fold (images_of fileList). cbv zeta.
  destruct (images_of fileList) as [|f files] eqn:Himages; [left; split; reflexivity|].
  right.
  destruct (List.find _ (f :: files)) as [tooBig|] eqn:Hfind; [left; eauto|].
  right. apply find_None_within in Hfind.
  destruct (Local.read_files env 0 (f :: files)) as [next|e] eqn:Hread.
  - right. split; [discriminate|]. split; [exact Hfind|]. exists next.
    split; [reflexivity|]. destruct next as [|? [|? ?]]; repeat split.
  - left. split; [discriminate|]. split; [exact Hfind|]. split; [eauto | reflexivity].
Qed.

(** X1. A drop (or a choice in the file dialog) that carries no image adds
    nothing and selects nothing. An empty drop is ignored altogether, an
    earlier error included; a drop of files that are no images asks for an
    image. *)
Theorem drop_without_image env files st :
  images_of files = [] ->
  let st' := Local.onDrop env files st in
  Local.photos st' = Local.photos st /\
  Local.activeId st' = Local.activeId st /\
  Local.error st'
  = match files with
    | Some (_ :: _) => Some (str "Please select an image file (JPG/PNG/WebP/GIF).")
    | _ => Local.error st
    end.
Proof.
  intros Himages. cbv zeta. unfold Local.onDrop.
  destruct files as [[|f files]|]; try (repeat split; reflexivity).
  destruct (addFiles_cases env (Some (f :: files)) st)
    as [[_ ->] | [(tooBig & Hfind & _) | [(Hne & _) | (Hne & _)]]];
    try congruence; [repeat split|].
  rewrite Himages in Hfind. discriminate.
Qed.

Lemma drop_without_image_witness :
  let st' := Local.onDrop sample_browser (Some [text_file]) showing_first in
  Local.photos st' = Local.photos showing_first /\
  Local.error st' = Some (str "Please select an image file (JPG/PNG/WebP/GIF).").
Proof.
  destruct (drop_without_image sample_browser (Some [text_file]) showing_first)
    as (Hphotos & _ & Herror).
  - reflexivity.
  - split; [exact Hphotos | exact Herror].
Defined.

(** X2. When an accepted file of a batch cannot be read, the call is
    abandoned: no record is added, not even for the files read before it,
    the selection stays, and the error has been cleared. *)
Theorem addFiles_unreadable_adds_nothing env fileList st :
  images_of fileList <> [] ->
  within Local.MAX_IMAGE_BYTES (images_of fileList) ->
  Exists (fun f => exists e, Local.readFileAsDataURL f = Throw e) (images_of fileList) ->
  Local.addFiles env fileList st = Local.setError None st.
Proof.
  intros Hne Hsize Hex.
  destruct (read_files_Throw env _ 0 Hex) as [e Hread].
  destruct (addFiles_cases env fileList st)
    as [[Hnil _] | [(tooBig & Hfind & _) | [(_ & _ & _ & ->) | (_ & _ & next & Hok & _)]]].
  - contradiction.
  - rewrite (find_within _ _ Hsize) in Hfind. discriminate.
  - reflexivity.
  - congruence.
Qed.

Lemma addFiles_unreadable_adds_nothing_witness :
  Local.addFiles sample_browser (Some [sample_file; text_file; unreadable_file]) showing_first
  = Local.setError None showing_first.
Proof.
  apply addFiles_unreadable_adds_nothing.
  - vm_compute. discriminate.
  - repeat constructor; vm_compute; discriminate.
  - apply Exists_cons_tl, Exists_cons_hd. eexists. reflexivity.
Defined.

(** ** The active photo *)

Lemma find_head {A} (f : A -> bool) x l : f x = true -> List.find f (x :: l) = Some x.
Proof. intros H. simpl. rewrite H. reflexivity. Qed.

(** X3. A batch of exactly one image selects it: the new record comes first,
    it is the active photo, and a download offers its payload under its
    name. A batch of several images leaves the selection as it was. *)
Theorem addFiles_selection env files urls st :
  files <> [] ->
  Forall accepted files ->
  Forall2 (fun f url => Local.readFileAsDataURL f = Ok url) files urls ->
  let st' := Local.addFiles env (Some files) st in
  match files, urls with
  | [f], [url] =>
      Local.activeId st' = Some (Local.randomUUID env 0) /\
      Local.photos st' !! 0%nat = Some (record_of env 0 f url) /\
      Local.activePhoto st' = Some (record_of env 0 f url) /\
      Local.downloadActive st'
      = Some {| Local.href := url;
                Local.download := if truthy (file_name f) then file_name f
                                  else str "photo" |}
  | _, _ => Local.activeId st' = Local.activeId st
  end.
Proof.
  intros Hne Hacc Hread. cbv zeta.
  assert (Himages : images_of (Some files) = files).
  { apply filter_all. eapply Forall_impl; [exact Hacc|]. intros f [Hty _]. exact Hty. }
  assert (Hsize : within Local.MAX_IMAGE_BYTES files).
  { eapply Forall_impl; [exact Hacc|]. intros f [_ Hsz]. exact Hsz. }
  destruct (addFiles_cases env (Some files) st)
    as [[Hnil _] | [(tooBig & Hfind & _) | [(_ & _ & [e He] & _) | (_ & _ & next & Hnext & Hphotos & _ & Hactive)]]];
    rewrite Himages in *; try congruence.
  { rewrite (find_within _ _ Hsize) in Hfind. discriminate. }
  { rewrite (read_files_ok env files urls 0 Hread) in He. discriminate. }
  rewrite (read_files_ok env files urls 0 Hread) in Hnext. injection Hnext as <-.
  destruct Hread as [|f url files' urls' Hf Hrest]; [congruence|].
  destruct Hrest as [|f2 url2 files'' urls'' Hf2 Hrest].
  - cbn [zip zip_with imap] in Hphotos, Hactive.
    unfold Local.downloadActive, Local.activePhoto.
    rewrite Hactive, Hphotos. cbn [app take Local.id record_of fst snd].
    rewrite find_head by (apply bool_decide_eq_true_2; reflexivity).
    repeat split.
  - exact Hactive.
Qed.

Lemma addFiles_selection_witness :
  Local.activePhoto (Local.addFiles sample_browser (Some [sample_file]) showing_first)
  = Some (record_of sample_browser 0 sample_file sample_url).
Proof.
  destruct (addFiles_selection sample_browser [sample_file] [sample_url] showing_first)
    as (_ & _ & Hactive & _).
  - discriminate.
  - repeat constructor. vm_compute. discriminate.
  - repeat constructor.
  - exact Hactive.
Defined.

Lemma find_filter_other {A} (f g : A -> bool) l :
  (forall x, f x = true -> g x = true) ->
  List.find f (List.filter g l) = List.find f l.
Proof.
  intros Hfg. induction l as [|x l IH]; [reflexivity|]. simpl.
  destruct (g x) eqn:Hg; simpl.
  - destruct (f x); [reflexivity | exact IH].
  - destruct (f x) eqn:Hf; [rewrite (Hfg x Hf) in Hg; discriminate | exact IH].
Qed.

Lemma find_filter_none {A} (f g : A -> bool) l :
  (forall x, f x = true -> g x = false) ->
  List.find f (List.filter g l) = None.
Proof.
  intros Hfg. apply find_all_false, Forall_forall. intros x Hx.
  apply list_elem_of_In, List.filter_In in Hx as [_ Hg].
  destruct (f x) eqn:Hf; [rewrite (Hfg x Hf) in Hg; discriminate | reflexivity].
Qed.

(** X4. Removing the photo that is shown closes the detail view; removing
    any other photo leaves the shown photo, and what a download would
    offer, as they were. *)
Theorem removePhoto_activePhoto (i : jstring) (st : Local.State) :
  Local.activePhoto (Local.removePhoto i st)
  = (if bool_decide (Local.activeId st = Some i) then None else Local.activePhoto st) /\
  Local.downloadActive (Local.removePhoto i st)
  = (if bool_decide (Local.activeId st = Some i) then None else Local.downloadActive st).
Proof.
  assert (H : Local.activePhoto (Local.removePhoto i st)
              = if bool_decide (Local.activeId st = Some i) then None
                else Local.activePhoto st).
  { unfold Local.activePhoto.
    rewrite removePhoto_activeId, removePhoto_photos.
    destruct (bool_decide_reflect (Local.activeId st = Some i)) as [Ha|Ha]; [reflexivity|].
    destruct (Local.activeId st) as [a|]; [|reflexivity].
    apply find_filter_other. intros p Hp.
    apply bool_decide_eq_true in Hp. apply negb_true_iff, bool_decide_eq_false_2.
    congruence. }
  split; [exact H|]. unfold Local.downloadActive. rewrite H.
  destruct (bool_decide _); reflexivity.
Qed.

Lemma filter_NoDup_length (i : jstring) (ps : list Local.PhotoItem) :
  NoDup (Local.id <$> ps) -> i ∈ Local.id <$> ps ->
  (length (List.filter (fun p => negb (bool_decide (Local.id p = i))) ps) + 1
   = length ps)%nat.
Proof.
  induction ps as [|p ps IH]; cbn [fmap list_fmap]; intros Hnd Hin.
  - apply elem_of_nil in Hin. destruct Hin.
  - apply NoDup_cons in Hnd as [Hp Hnd]. cbn [List.filter].
    destruct (bool_decide_reflect (Local.id p = i)) as [Heq|Hne]; cbn [negb length].
    + rewrite filter_all; [lia|]. apply Forall_forall. intros q Hq.
      apply negb_true_iff, bool_decide_eq_false_2. intros Hqi.
      apply Hp. rewrite Heq, <- Hqi. apply list_elem_of_fmap_2, Hq.
    + apply elem_of_cons in Hin as [Hin|Hin]; [congruence|].
      specialize (IH Hnd Hin). lia.
Qed.

Lemma NoDup_fmap_filter {A B} (f : A -> B) (g : A -> bool) l :
  NoDup (f <$> l) -> NoDup (f <$> List.filter g l).
Proof.
  induction l as [|x l IH]; cbn [fmap list_fmap List.filter]; [auto|].
  intros Hnd. apply NoDup_cons in Hnd as [Hx Hnd].
  destruct (g x); [|auto]. cbn [fmap list_fmap]. apply NoDup_cons. split; [|auto].
  intros Hin. apply Hx. apply list_elem_of_fmap in Hin as (y & -> & Hy).
  apply list_elem_of_fmap_2. apply list_elem_of_In, List.filter_In in Hy as [Hy _].
  apply list_elem_of_In, Hy.
Qed.

(** X5. Removal leaves no record of the identifier and keeps the identifiers
    distinct; when they are distinct and the identifier occurs, the
    sequence loses exactly one record. *)
Theorem removePhoto_exactly_one (i : jstring) (st : Local.State) :
  NoDup (Local.id <$> Local.photos st) ->
  i ∈ Local.id <$> Local.photos st ->
  let st' := Local.removePhoto i st in
  (i ∉ Local.id <$> Local.photos st') /\
  NoDup (Local.id <$> Local.photos st') /\
  (length (Local.photos st') + 1 = length (Local.photos st))%nat.
Proof.
  intros Hnd Hin. cbv zeta. rewrite removePhoto_photos. repeat split.
  - intros Hi. apply list_elem_of_fmap in Hi as (p & -> & Hp).
    apply list_elem_of_In, List.filter_In in Hp as [_ Hp].
    apply negb_true_iff, bool_decide_eq_false in Hp. congruence.
  - apply NoDup_fmap_filter, Hnd.
  - apply filter_NoDup_length; assumption.
Qed.

Lemma removePhoto_exactly_one_witness :
  length (Local.photos (Local.removePhoto (str "old-7") full_gallery)) = 29%nat.
Proof.
  destruct (removePhoto_exactly_one (str "old-7") full_gallery) as (_ & _ & Hlen).
  - apply (bool_decide_unpack _). vm_compute. exact I.
  - apply (bool_decide_unpack _). vm_compute. exact I.
  - change (length (Local.photos full_gallery)) with 30%nat in Hlen. lia.
Defined.

(** X6. What a download offers: nothing when no photo is shown, which
    includes a selection that points at no photo of the sequence; otherwise
    the payload of the first photo with the selected identifier, under its
    name, or under "photo" when the name is empty, so never under an empty
    name. *)
Theorem downloadActive_offer (st : Local.State) :
  match Local.downloadActive st with
  | Some a =>
      exists p, p ∈ Local.photos st /\ Local.activeId st = Some (Local.id p) /\
                Local.activePhoto st = Some p /\
                Local.href a = Local.dataUrl p /\
                Local.download a <> [] /\
                (Local.name p <> [] -> Local.download a = Local.name p) /\
                (Local.name p = [] -> Local.download a = str "photo")
  | None =>
      forall p, p ∈ Local.photos st -> Local.activeId st <> Some (Local.id p)
  end.
Proof.
  unfold Local.downloadActive, Local.activePhoto.
  destruct (Local.activeId st) as [a|]; [|intros p _; discriminate].
  destruct (List.find _ _) as [p|] eqn:Hfind.
  - apply List.find_some in Hfind as [Hin Hid]. apply bool_decide_eq_true in Hid.
    exists p. cbn [Local.href Local.download].
    split; [apply list_elem_of_In, Hin|]. split; [congruence|]. split; [reflexivity|].
    split; [reflexivity|]. destruct (Local.name p) as [|c n]; cbn [truthy];
      repeat split; try discriminate; congruence.
  - intros p Hp [= ->].
    pose proof (List.find_none _ _ Hfind p (proj1 (list_elem_of_In _ _) Hp)) as H.
    cbv beta in H. apply bool_decide_eq_false in H. congruence.
Qed.

Lemma downloadActive_offer_witness :
  exists a, Local.downloadActive showing_first = Some a /\
            Local.download a = str "old.png" /\ Local.href a = sample_url.
Proof.
  pose proof (downloadActive_offer showing_first) as H.
  destruct (Local.downloadActive showing_first) as [a|] eqn:Ha; [|discriminate Ha].
  exists a. split; [reflexivity|].
  destruct H as (p & _ & _ & Hp & Hhref & _ & Hname & _).
  injection Hp as <-. split; [apply Hname; discriminate | exact Hhref].
Defined.

(** ** The storage *)



(** X8. The component keeps to its own key: neither the save effect nor
    [clearAll] changes what the storage holds under any other key, nor the
    quota. *)
Theorem storage_other_keys (key : jstring) (st : Local.State) (ls : Storage) :
  key <> Local.STORAGE_KEY ->
  getItem (Local.saveEffect st ls) key = getItem ls key /\
  getItem (Local.clearAll st ls).2 key = getItem ls key /\
  match ls with
  | Open _ quota =>
      (exists items, Local.saveEffect st ls = Open items quota) /\
      (exists items, (Local.clearAll st ls).2 = Open items quota)
  | Blocked => Local.saveEffect st ls = Blocked /\ (Local.clearAll st ls).2 = Blocked
  end.
Proof.
  intros Hkey. unfold Local.saveEffect, Local.clearAll. cbn [snd].
  destruct ls as [|items quota]; cbn [setItem removeItem getItem]; [repeat split|].
  destruct (storage_used _ <=? quota)%nat; cbn [getItem];
    rewrite ?lookup_insert_ne, ?lookup_delete_ne by congruence; repeat split; eauto.
Qed.

Lemma storage_other_keys_witness :
  getItem (Local.saveEffect full_gallery
             (Open {[ str "theme" := str "dark" ]} (100 * 100))) (str "theme")
  = Ok (Some (str "dark")).
Proof.
  destruct (storage_other_keys (str "theme") full_gallery
              (Open {[ str "theme" := str "dark" ]} (100 * 100))) as (Hsave & _).
  - vm_compute. discriminate.
  - rewrite Hsave. reflexivity.
Defined.

(** ** More on the byte-size formatter *)

Lemma Qle_bool_false a b : Qle_bool a b = false <-> (b < a)%Q.
Proof.
  split.
  - intros H. apply Qnot_le_lt. rewrite <- Qle_bool_iff, H. discriminate.
  - intros H. destruct (Qle_bool a b) eqn:E; [|reflexivity].
    apply Qle_bool_iff in E. exfalso. eapply Qlt_not_le; eassumption.
Qed.

Lemma Qlt_bool_true a b : Qlt_bool a b = true <-> (a < b)%Q.
Proof. unfold Qlt_bool. rewrite negb_true_iff. apply Qle_bool_false. Qed.

Lemma Qlt_bool_false a b : Qlt_bool a b = false <-> (b <= a)%Q.
Proof. unfold Qlt_bool. rewrite negb_false_iff. apply Qle_bool_iff. Qed.

(** The loop of [formatBytes] stops where the thresholds say. *)
Lemma while_loop_unit_index b :
  while_loop (length units) b 0
  = (Nat.iter (unit_index b) (fun v => v / 1024)%Q b, unit_index b).
Proof.
  pose proof (Qdiv_1024 b) as E1.
  pose proof (Qdiv_1024 (b / 1024)) as E2.
  unfold unit_index. simpl length. cbn [while_loop]. simpl Nat.sub.
  cbn [Nat.ltb Nat.leb]. rewrite !andb_true_r.
  destruct (Qlt_bool b 1024) eqn:H0.
  { apply Qlt_bool_true in H0. apply Qle_bool_false in H0. rewrite H0. reflexivity. }
  apply Qlt_bool_false in H0. rewrite (proj2 (Qle_bool_iff _ _) H0).
  destruct (Qlt_bool b (1024 * 1024)) eqn:H1.
  { apply Qlt_bool_true in H1.
    assert (Hv : (b / 1024 < 1024)%Q) by (set (v1 := (b / 1024)%Q) in *; lra).
    apply Qle_bool_false in Hv. rewrite Hv. reflexivity. }
  apply Qlt_bool_false in H1.
  assert (Hv1 : (1024 <= b / 1024)%Q) by (set (v1 := (b / 1024)%Q) in *; lra).
  rewrite (proj2 (Qle_bool_iff _ _) Hv1).
  destruct (Qlt_bool b (1024 * 1024 * 1024)) eqn:H2.
  { apply Qlt_bool_true in H2.
    assert (Hv : (b / 1024 / 1024 < 1024)%Q).
    { set (v1 := (b / 1024)%Q) in *. set (v2 := (v1 / 1024)%Q) in *. lra. }
    apply Qle_bool_false in Hv. rewrite Hv. reflexivity. }
  apply Qlt_bool_false in H2.
  assert (Hv2 : (1024 <= b / 1024 / 1024)%Q).
  { set (v1 := (b / 1024)%Q) in *. set (v2 := (v1 / 1024)%Q) in *. lra. }
  rewrite (proj2 (Qle_bool_iff _ _) Hv2), andb_false_r. reflexivity.
Qed.

(** X9. The unit is chosen by the thresholds 1024, 1024^2 and 1024^3 alone:
    below 1024, negative values included, the value is written unscaled in
    "B"; from 1024^3 on it is written in "GB" however large it is. *)
Theorem formatBytes_thresholds (b : Q) :
  let i := unit_index b in
  formatBytes (Finite b)
  = toFixed (Nat.iter i (fun v => v / 1024)%Q b) (if decide (i = 0%nat) then 0 else 1)
      ++ str " " ++ unit_at i /\
  ((b < 1024)%Q -> i = 0%nat /\ unit_at i = str "B") /\
  ((1024 <= b)%Q -> (b < 1024 * 1024)%Q -> i = 1%nat /\ unit_at i = str "KB") /\
  ((1024 * 1024 <= b)%Q -> (b < 1024 * 1024 * 1024)%Q -> i = 2%nat /\ unit_at i = str "MB") /\
  ((1024 * 1024 * 1024 <= b)%Q -> i = 3%nat /\ unit_at i = str "GB").
Proof.
  cbv zeta. split.
  { unfold formatBytes. rewrite while_loop_unit_index. reflexivity. }
  unfold unit_index.
  repeat split; intros;
    repeat match goal with
      | |- context [Qlt_bool ?x ?y] =>
          let E := fresh "E" in
          destruct (Qlt_bool x y) eqn:E;
          [apply Qlt_bool_true in E | apply Qlt_bool_false in E]
      end; try reflexivity; exfalso; lra.
Qed.

Lemma formatBytes_thresholds_witness :
  formatBytes (of_int (1024 * 1024 * 1024 * 1024 * 5)) = str "5120.0 GB".
Proof.
  destruct (formatBytes_thresholds (inject_Z (1024 * 1024 * 1024 * 1024 * 5)))
    as (Hout & _ & _ & _ & Hgb).
  destruct Hgb as [Hi _]; [vm_compute; discriminate|].
  unfold of_int. rewrite Hout. vm_compute. reflexivity.
Defined.

Lemma Qfloor_half (n : Z) : Qfloor (inject_Z n * inject_Z (10 ^ Z.of_nat 0) + (1 # 2)) = n.
Proof.
  change (inject_Z (10 ^ Z.of_nat 0)) with 1%Q.
  pose proof (Qfloor_le (inject_Z n * 1 + (1 # 2))) as Hle.
  pose proof (Qlt_floor (inject_Z n * 1 + (1 # 2))) as Hlt.
  remember (Qfloor (inject_Z n * 1 + (1 # 2))) as m eqn:Hm. clear Hm.
  assert (H1 : (inject_Z m < inject_Z (n + 1))%Q).
  { rewrite inject_Z_plus. change (inject_Z 1) with 1%Q. lra. }
  assert (H2 : (inject_Z n < inject_Z (m + 1))%Q) by lra.
  rewrite <- Zlt_Qlt in H1, H2. lia.
Qed.

(** X10. A whole number of bytes below 1024 is shown exactly, digit for
    digit, followed by " B". *)
Theorem formatBytes_exact_bytes (z : Z) :
  0 <= z < 1024 ->
  formatBytes (of_int z) = decimal_Z z ++ str " B".
Proof.
  intros Hz. unfold of_int, formatBytes. rewrite while_loop_unit_index.
  assert (Hi : unit_index (inject_Z z) = 0%nat).
  { unfold unit_index.
    replace (Qlt_bool (inject_Z z) 1024) with true; [reflexivity|].
    symmetry. apply Qlt_bool_true. change 1024%Q with (inject_Z 1024).
    rewrite <- Zlt_Qlt. lia. }
  rewrite Hi. unfold Nat.iter. cbn [nat_rect].
  change (unit_at 0) with (str "B").
  change (if decide (0%nat = 0%nat) then 0%nat else 1%nat) with 0%nat.
  f_equal. unfold toFixed.
  assert (Hneg : Qlt_bool (inject_Z z) 0 = false).
  { apply Qlt_bool_false. change 0%Q with (inject_Z 0). rewrite <- Zle_Qle. lia. }
  rewrite Hneg.
  assert (Habs : Qabs (inject_Z z) = inject_Z z).
  { unfold Qabs, inject_Z. f_equal. lia. }
  rewrite Habs.
  assert (Hbig : Qle_bool (inject_Z (10 ^ 21)) (inject_Z z) = false).
  { apply Qle_bool_false. rewrite <- Zlt_Qlt.
    change (10 ^ 21) with 1000000000000000000000. lia. }
  rewrite Hbig, Qfloor_half. reflexivity.
Qed.

Lemma formatBytes_exact_bytes_witness : formatBytes (of_int 512) = str "512 B".
Proof. apply (formatBytes_exact_bytes 512). lia. Defined.

(** ** Invariants of the handlers *)

Lemma Forall_take_app {A} (P : A -> Prop) n (l k : list A) :
  Forall P l -> Forall P k -> Forall P (take n (l ++ k)).
Proof. intros Hl Hk. apply Forall_take, Forall_app_2; assumption. Qed.

Lemma images_of_image fileList f :
  f ∈ images_of fileList -> startsWith (file_type f) (str "image/") = true.
Proof. intros Hf. apply list_elem_of_In, List.filter_In in Hf. apply Hf. Qed.

(** X11. Every handler keeps the sequence to what intake admits: when all
    its records are images of at most 4 MiB, they still are after [addFiles]
    (whatever the files), after [removePhoto] and after [clearAll]. *)
Theorem intake_kept (st : Local.State) :
  Forall intake_ok (Local.photos st) ->
  (forall env fileList, Forall intake_ok (Local.photos (Local.addFiles env fileList st))) /\
  (forall i, Forall intake_ok (Local.photos (Local.removePhoto i st))) /\
  (forall ls, Forall intake_ok (Local.photos (Local.clearAll st ls).1)).
Proof.
  intros Hst. repeat split.
  - intros env fileList.
    destruct (addFiles_cases env fileList st)
      as [[_ ->] | [(tooBig & _ & ->) | [(_ & _ & _ & ->) | (_ & Hsize & next & Hread & -> & _)]]];
      try exact Hst.
    apply Forall_take_app; [|exact Hst].
    apply read_files_Ok in Hread as [Hall _].
    apply Forall_forall. intros p Hp.
    destruct (list_elem_of_lookup_1 _ _ Hp) as [k Hk].
    destruct (Forall2_lookup_r _ _ _ _ _ Hall Hk) as (f & Hf & _ & Hty & Hsz & _).
    apply list_elem_of_lookup_2 in Hf. split.
    + rewrite Hty. eapply images_of_image, Hf.
    + rewrite Hsz. unfold within in Hsize. rewrite Forall_forall in Hsize. apply Hsize, Hf.
  - intros i. rewrite removePhoto_photos.
    apply Forall_forall. intros p Hp. apply list_elem_of_In, List.filter_In in Hp as [Hp _].
    rewrite Forall_forall in Hst. apply Hst, list_elem_of_In, Hp.
  - intros ls. constructor.
Qed.

Lemma sample_photos_intake n : Forall intake_ok (sample_photo <$> seq 0 n).
Proof.
  apply Forall_fmap, Forall_forall. intros k _. split; [reflexivity|].
  vm_compute. discriminate.
Qed.

Lemma intake_kept_witness :
  Forall intake_ok
    (Local.photos (Local.addFiles sample_browser (Some [sample_file; text_file]) full_gallery)).
Proof.
  destruct (intake_kept full_gallery) as (Hadd & _).
  - apply (sample_photos_intake 30).
  - apply Hadd.
Defined.

(** X12. Identifiers stay distinct: when those of the sequence are distinct
    and the identifiers the browser hands out for a batch are new and
    distinct from each other, those of the sequence after [addFiles] are
    distinct, whatever the call does. *)
Theorem addFiles_distinct_ids env fileList st :
  NoDup (Local.id <$> Local.photos st) ->
  (forall j k, (j < length (images_of fileList))%nat -> (k < length (images_of fileList))%nat ->
               Local.randomUUID env j = Local.randomUUID env k -> j = k) ->
  (forall k, (k < length (images_of fileList))%nat ->
             Local.randomUUID env k ∉ Local.id <$> Local.photos st) ->
  NoDup (Local.id <$> Local.photos (Local.addFiles env fileList st)).
Proof.
  intros Hst Hinj Hfresh.
  destruct (addFiles_cases env fileList st)
    as [[_ ->] | [(tooBig & _ & ->) | [(_ & _ & _ & ->) | (_ & _ & next & Hread & -> & _)]]];
    try exact Hst.
  apply read_files_Ok in Hread as [_ Hids].
  rewrite fmap_take. eapply sublist_NoDup; [|apply sublist_take]. rewrite fmap_app, Hids.
  apply NoDup_app. repeat split.
  - apply NoDup_fmap_2_strong; [|apply NoDup_seq].
    intros j k Hj Hk. apply elem_of_seq in Hj, Hk. apply Hinj; lia.
  - intros i Hi Hold. apply list_elem_of_fmap in Hi as (k & -> & Hk).
    apply elem_of_seq in Hk. apply (Hfresh k); [lia | exact Hold].
  - exact Hst.
Qed.

Lemma addFiles_distinct_ids_witness :
  NoDup (Local.id <$>
           Local.photos (Local.addFiles sample_browser (Some [sample_file; sample_file])
                           full_gallery)).
Proof.
  apply addFiles_distinct_ids.
  - apply (bool_decide_unpack _). vm_compute. exact I.
  - change (length (images_of (Some [sample_file; sample_file]))) with 2%nat.
    intros j k Hj Hk. destruct j as [|[|j]], k as [|[|k]]; try lia;
      vm_compute; congruence.
  - change (length (images_of (Some [sample_file; sample_file]))) with 2%nat.
    intros k Hk. destruct k as [|[|k]]; [| |lia];
      apply (bool_decide_unpack _); vm_compute; exact I.
Defined.

(** ** The first render *)







Lemma loadEffect_unreadable ls st :
  persisted_length ls = None -> Local.loadEffect ls st = Local.runtime st.
Proof.
  unfold Local.loadEffect, persisted_length.
  destruct (getItem _ _) as [[raw|]|]; try reflexivity.
  destruct (truthy raw); [|reflexivity].
  destruct (JSON_parse raw) as [[]|]; try reflexivity. discriminate.
Qed.

(** X14. Mounting on a storage whose entry is absent, or is no JSON text of
    an array, starts with the empty gallery and, when the storage has room
    for it, replaces the entry by the empty array: what the entry held is
    lost. *)
Theorem mount_overwrites_unreadable (items : gmap jstring jstring) (quota : nat) :
  persisted_length (Open items quota) = None ->
  (storage_used (<[Local.STORAGE_KEY := str "[]"]> items) <= quota)%nat ->
  mount (Open items quota)
  = Some (Local.initial, Open (<[Local.STORAGE_KEY := str "[]"]> items) quota).
Proof.
  intros Hnone Hroom. unfold mount.
  rewrite (loadEffect_unreadable _ Local.initial Hnone).
  change (Local.typed (Local.runtime Local.initial)) with (Some Local.initial).
  cbn [mbind option_bind]. rewrite Hnone.
  unfold Local.saveEffect. cbn [setItem Local.photos Local.initial].
  change (Local.JSON_stringify []) with (str "[]").
  replace (storage_used (<[Local.STORAGE_KEY := str "[]"]> items) <=? quota)%nat with true
    by (symmetry; apply Nat.leb_le; exact Hroom).
  reflexivity.
Qed.

Lemma mount_overwrites_unreadable_witness :
  mount (Open {[ Local.STORAGE_KEY := str "{not json" ]} 100)
  = Some (Local.initial, Open {[ Local.STORAGE_KEY := str "[]" ]} 100).
Proof.
  rewrite <- (insert_singleton_eq Local.STORAGE_KEY (str "{not json") (str "[]")).
  apply mount_overwrites_unreadable.
  - reflexivity.
  - vm_compute. lia.
Defined.

(** * Further properties of the server-backed component *)

(** X15. Reload replaces the sequence by the list of the server when the
    request is answered in 200-299 with a body that parses, and by nothing
    else: on any failure the sequence shown stays, and the error says what
    failed. The selection and the busy flag are never touched. *)
Theorem loadPhotos_outcome (fetch : Server.Fetch) (st : Server.State) :
  let st' := Server.loadPhotos fetch st in
  Server.activeId st' = Server.activeId st /\
  Server.busy st' = Server.busy st /\
  match fetch Server.GET_photos with
  | Throw e =>
      Server.photos st' = Server.photos st /\
      Server.error st' = Some (if truthy e then e else str "Failed to load photos")
  | Ok res =>
      if Server.ok res then
        match Server.json_body res with
        | Ok data => Server.photos st' = data /\ Server.error st' = None
        | Throw e =>
            Server.photos st' = Server.photos st /\
            Server.error st' = Some (if truthy e then e else str "Failed to load photos")
        end
      else
        Server.photos st' = Server.photos st /\
        Server.error st'
        = Some (str "Failed to load (" ++ Number_toString (Server.status res) ++ str ")")
  end.
Proof.
  cbv zeta. unfold Server.loadPhotos, Server.loadPhotos_try.
  destruct (fetch Server.GET_photos) as [res|e]; [|repeat split].
  destruct (Server.ok res); cbn [negb]; [|repeat split].
  destruct (Server.json_body res); repeat split.
Qed.

(** X16. An upload the server takes ends in a reload: the state after it is
    the state a reload gives, with the busy flag released. The sequence is
    then the list of the server, whatever was shown and whatever was
    uploaded. *)
Theorem uploadFiles_reconciles fetch fileList st res :
  images_of fileList <> [] ->
  within Server.MAX_IMAGE_BYTES (images_of fileList) ->
  fetch (Server.POST_photos (images_of fileList)) = Ok res ->
  Server.ok res = true ->
  Server.uploadFiles fetch fileList st = Server.setBusy false (Server.loadPhotos fetch st) /\
  (forall data, Server.loadPhotos_try fetch = Ok data ->
                Server.photos (Server.uploadFiles fetch fileList st) = data).
Proof.
  intros Hne Hsize Hres Hok.
  assert (H : Server.uploadFiles fetch fileList st
              = Server.setBusy false (Server.loadPhotos fetch st)).
  { rewrite (uploadFiles_sent fetch fileList st Hne Hsize).
    unfold Server.uploadFiles_try. rewrite Hres, Hok. cbn [negb].
    unfold Server.loadPhotos. destruct (Server.loadPhotos_try fetch); reflexivity. }
  split; [exact H|]. intros data Hdata. rewrite H.
  unfold Server.loadPhotos. rewrite Hdata. reflexivity.
Qed.

Lemma uploadFiles_reconciles_witness :
  Server.photos (Server.uploadFiles accepting_server (Some [sample_file]) sample_remote_state)
  = [sample_remote 7; sample_remote 8].
Proof.
  destruct (uploadFiles_reconciles accepting_server (Some [sample_file]) sample_remote_state
              {| Server.status := 201; Server.text := Ok (str "[...]");
                 Server.json_body := Ok [] |}) as (_ & Hdata).
  - vm_compute. discriminate.
  - repeat constructor. vm_compute. discriminate.
  - reflexivity.
  - reflexivity.
  - apply Hdata. reflexivity.
Defined.

(** X17. A batch that fails the checks of [uploadFiles] never reaches the
    server: when it holds no image, or an image above the limit, the state
    after the call is the same whatever the server would answer; the
    sequence, the selection and the busy flag are as before and an error is
    set. *)
Theorem uploadFiles_checks_first fetch fetch' fileList st :
  images_of fileList = [] \/ ~ within Server.MAX_IMAGE_BYTES (images_of fileList) ->
  let st' := Server.uploadFiles fetch fileList st in
  st' = Server.uploadFiles fetch' fileList st /\
  Server.onDrop fetch fileList st = Server.onDrop fetch' fileList st /\
  Server.photos st' = Server.photos st /\
  Server.activeId st' = Server.activeId st /\
  Server.busy st' = Server.busy st /\
  Server.error st' <> None.
Proof.
  intros Hbad. cbv zeta.
  assert (H : forall fetch0,
             Server.uploadFiles fetch0 fileList st
             = match images_of fileList with
               | [] => Server.setError
                         (Some (str "Please select an image file (JPG/PNG/WebP/GIF)."))
                         (Server.setError None st)
               | _ :: _ =>
                   match List.find (fun f => file_size f >? Server.MAX_IMAGE_BYTES)
                           (images_of fileList) with
                   | Some tooBig => Server.setError (Some (Server.too_large tooBig))
                                      (Server.setError None st)
                   | None => Server.uploadFiles fetch0 fileList st
                   end
               end).
  { intros fetch0. unfold Server.uploadFiles at 1. fold (images_of fileList). cbv zeta.
    destruct (images_of fileList) as [|f files] eqn:Himages; [reflexivity|].
    destruct (List.find _ (f :: files)) eqn:Hfind; [reflexivity|].
    unfold Server.uploadFiles. fold (images_of fileList). cbv zeta.
    rewrite Himages, Hfind. reflexivity. }
  assert (Heq : forall fetch0 fetch1,
             Server.uploadFiles fetch0 fileList st = Server.uploadFiles fetch1 fileList st).
  { intros fetch0 fetch1. rewrite (H fetch0), (H fetch1).
    destruct (images_of fileList) as [|f files] eqn:Himages; [reflexivity|].
    destruct Hbad as [Hnil | Hbig]; [discriminate|].
    destruct (List.find _ (f :: files)) as [tooBig|] eqn:Hfind; [reflexivity|].
    destruct Hbig. apply find_None_within, Hfind. }
  split; [apply Heq|]. split.
  { unfold Server.onDrop. destruct fileList as [[|f files]|]; try reflexivity. apply Heq. }
  rewrite (H fetch).
  destruct (images_of fileList) as [|f files] eqn:Himages; [repeat split; discriminate|].
  destruct Hbad as [Hnil | Hbig]; [discriminate|].
  destruct (List.find _ (f :: files)) as [tooBig|] eqn:Hfind; [repeat split; discriminate|].
  destruct Hbig. apply find_None_within, Hfind.
Qed.

Lemma uploadFiles_checks_first_witness :
  Server.uploadFiles failing_server (Some [text_file]) sample_remote_state
  = Server.uploadFiles accepting_server (Some [text_file]) sample_remote_state.
Proof.
  apply (uploadFiles_checks_first failing_server accepting_server (Some [text_file])
           sample_remote_state).
  left. reflexivity.
Defined.

(** X18. After [deletePhoto] the detail view follows the outcome: when the
    server confirms, it closes if it showed the deleted photo and keeps
    showing its photo otherwise; when the server refuses or the request
    fails, it shows what it showed. *)
Theorem deletePhoto_activePhoto (fetch : Server.Fetch) (i : Z) (st : Server.State) :
  let st' := Server.deletePhoto fetch i st in
  match fetch (Server.DELETE_photo i) with
  | Ok res =>
      if Server.ok res || (Server.status res =? 204) then
        Server.activePhoto st'
        = (if bool_decide (Server.activeId st = Some i) then None else Server.activePhoto st)
      else Server.activePhoto st' = Server.activePhoto st
  | Throw _ => Server.activePhoto st' = Server.activePhoto st
  end.
Proof.
  cbv zeta. unfold Server.deletePhoto, Server.deletePhoto_try.
  change (Server.activeId (Server.setBusy true (Server.setError None st)))
    with (Server.activeId st).
  destruct (fetch (Server.DELETE_photo i)) as [res|e]; [|reflexivity].
  assert (Hdone :
    Server.activePhoto
      (Server.setBusy false
         (if bool_decide (Server.activeId st = Some i)
          then Server.setActiveId None
                 (Server.setPhotos
                    (List.filter (fun p => negb (Server.id p =? i))
                       (Server.photos (Server.setBusy true (Server.setError None st))))
                    (Server.setBusy true (Server.setError None st)))
          else Server.setPhotos
                 (List.filter (fun p => negb (Server.id p =? i))
                    (Server.photos (Server.setBusy true (Server.setError None st))))
                 (Server.setBusy true (Server.setError None st))))
    = if bool_decide (Server.activeId st = Some i) then None else Server.activePhoto st).
  { destruct (bool_decide_reflect (Server.activeId st = Some i)) as [Ha|Ha]; [reflexivity|].
    unfold Server.activePhoto.
    cbn [Server.activeId Server.photos Server.setBusy Server.setPhotos Server.setError].
    destruct (Server.activeId st) as [a|]; [|reflexivity].
    apply find_filter_other. intros p Hp. apply Z.eqb_eq in Hp.
    apply negb_true_iff, Z.eqb_neq. congruence. }
  destruct (Server.ok res); cbn [negb andb orb]; [exact Hdone|].
  destruct (Server.status res =? 204); cbn [negb]; [exact Hdone | reflexivity].
Qed.

(** X19. What a download offers in the server-backed component: nothing
    when no photo is shown; otherwise the full-size address of the shown
    photo under its name, or under "photo-<id>" when the name is empty,
    never under an empty name. *)
Theorem Server_downloadActive_offer (st : Server.State) :
  match Server.downloadActive st with
  | Some a =>
      exists p, p ∈ Server.photos st /\ Server.activeId st = Some (Server.id p) /\
                Server.href a = Server.image_url p /\
                Server.download a <> [] /\
                Server.download a
                = (if truthy (Server.name p) then Server.name p
                   else str "photo-" ++ Number_toString (Server.id p))
  | None =>
      forall p, p ∈ Server.photos st -> Server.activeId st <> Some (Server.id p)
  end.
Proof.
  unfold Server.downloadActive, Server.activePhoto.
  destruct (Server.activeId st) as [a|]; [|intros p _; discriminate].
  destruct (List.find _ _) as [p|] eqn:Hfind.
  - apply List.find_some in Hfind as [Hin Hid]. apply Z.eqb_eq in Hid.
    exists p. cbn [Server.href Server.download].
    split; [apply list_elem_of_In, Hin|]. split; [congruence|]. split; [reflexivity|].
    split; [|reflexivity]. destruct (Server.name p); cbn [truthy]; discriminate.
  - intros p Hp [= ->].
    pose proof (List.find_none _ _ Hfind p (proj1 (list_elem_of_In _ _) Hp)) as H.
    cbv beta in H. apply Z.eqb_neq in H. congruence.
Qed.

Lemma Server_downloadActive_offer_witness :
  exists a, Server.downloadActive sample_remote_state = Some a /\
            Server.download a = str "remote.png" /\
            Server.href a = str "/media/remote.png".
Proof.
  pose proof (Server_downloadActive_offer sample_remote_state) as H.
  destruct (Server.downloadActive sample_remote_state) as [a|] eqn:Ha;
    [|discriminate Ha].
  exists a. split; [reflexivity|].
  injection Ha as <-. split; reflexivity.
Defined.

(** * The error banner *)

Lemma message_or_nonempty fallback m :
  str fallback <> [] -> Server.message_or fallback m <> [].
Proof. intros Hf. unfold Server.message_or. destruct m; cbn [truthy]; [exact Hf | discriminate]. Qed.

Lemma loadPhotos_error_nonempty fetch st :
  Server.error (Server.loadPhotos fetch st) <> Some [].
Proof.
  rewrite loadPhotos_error. destruct (Server.loadPhotos_try fetch); [discriminate|].
  intros [= H]. revert H. apply message_or_nonempty. discriminate.
Qed.

(** X20. The view shows the banner when the error is a non-empty string. No
    call of [addFiles], [loadPhotos], [uploadFiles] or [deletePhoto] leaves
    an empty message: after them the banner is shown exactly when an error
    is set. *)
Theorem error_never_empty :
  (forall env fileList st, Local.error (Local.addFiles env fileList st) <> Some []) /\
  (forall fetch st, Server.error (Server.loadPhotos fetch st) <> Some []) /\
  (forall fetch fileList st, Server.error (Server.uploadFiles fetch fileList st) <> Some []) /\
  (forall fetch i st, Server.error (Server.deletePhoto fetch i st) <> Some []).
Proof.
  repeat apply conj.
  - intros env fileList st.
    destruct (addFiles_cases env fileList st)
      as [[_ ->] | [(tooBig & _ & ->) | [(_ & _ & _ & ->) | (_ & _ & next & _ & _ & -> & _)]]];
      discriminate.
  - apply loadPhotos_error_nonempty.
  - intros fetch fileList st. unfold Server.uploadFiles. cbv zeta.
    destruct (List.filter _ _) as [|f files]; [discriminate|].
    destruct (List.find _ _); [discriminate|].
    unfold Server.uploadFiles_try.
    destruct (fetch _) as [res|e].
    + destruct (negb (Server.ok res)).
      * destruct (Server.text res) as [t|e]; [discriminate|].
        cbn [Server.error Server.setBusy Server.setError].
        intros [= H]. revert H. apply message_or_nonempty. discriminate.
      * cbn [Server.error Server.setBusy]. apply loadPhotos_error_nonempty.
    + cbn [Server.error Server.setBusy Server.setError].
      intros [= H]. revert H. apply message_or_nonempty. discriminate.
  - intros fetch i st. unfold Server.deletePhoto, Server.deletePhoto_try.
    destruct (fetch _) as [res|e].
    + destruct (negb (Server.ok res) && negb (Server.status res =? 204)); [discriminate|].
      cbn [Server.activeId Server.setBusy Server.setError].
      destruct (bool_decide _); discriminate.
    + cbn [Server.error Server.setBusy Server.setError].
      intros [= H]. revert H. apply message_or_nonempty. discriminate.
Qed.

(** * The start-up script *)

Lemma until_loop_Some w : forall fuel k cs,
  Entrypoint.until_loop w k fuel = Some cs ->
  exists n, (n < fuel)%nat /\ Entrypoint.nc w (k + n) = true /\
            (forall j, (j < n)%nat -> Entrypoint.nc w (k + j) = false) /\
            cs = concat (replicate n [Entrypoint.Probe; Entrypoint.Sleep])
                   ++ [Entrypoint.Probe].
Proof.
  induction fuel as [|fuel IH]; intros k cs; cbn [Entrypoint.until_loop]; [discriminate|].
  destruct (Entrypoint.nc w k) eqn:Hk.
  - intros [= <-]. exists 0%nat. rewrite Nat.add_0_r.
    repeat split; [lia | exact Hk | intros j Hj; lia].
  - destruct (Entrypoint.until_loop w (S k) fuel) as [cs'|] eqn:Hrest; [|discriminate].
    intros [= <-]. destruct (IH _ _ Hrest) as (n & Hn & Hup & Hdown & ->).
    exists (S n). repeat split.
    + lia.
    + rewrite <- Hup. f_equal. lia.
    + intros [|j] Hj; [rewrite Nat.add_0_r; exact Hk|].
      rewrite <- (Hdown j) by lia. f_equal. lia.
Qed.

Lemma until_loop_None w : forall fuel k,
  Entrypoint.until_loop w k fuel = None ->
  forall j, (j < fuel)%nat -> Entrypoint.nc w (k + j) = false.
Proof.
  induction fuel as [|fuel IH]; intros k; cbn [Entrypoint.until_loop]; [intros _ j Hj; lia|].
  destruct (Entrypoint.nc w k) eqn:Hk; [discriminate|].
  destruct (Entrypoint.until_loop w (S k) fuel) as [cs'|] eqn:Hrest; [discriminate|].
  intros _ [|j] Hj; [rewrite Nat.add_0_r; exact Hk|].
  rewrite <- (IH _ Hrest j) by lia. f_equal. lia.
Qed.

(** X21. The script probes the port until it answers, sleeping once after
    each probe that fails; only then it migrates, once; it starts the server
    only when the migration succeeded, and otherwise ends with the status of
    the migration without starting it. While no probe has succeeded it has
    run none of the two. *)
Theorem entrypoint_order (w : Entrypoint.World) (fuel : nat) :
  match Entrypoint.entrypoint w fuel with
  | Some (trace, code) =>
      exists n, (n < fuel)%nat /\ Entrypoint.nc w n = true /\
                (forall j, (j < n)%nat -> Entrypoint.nc w j = false) /\
                trace
                = Entrypoint.Echo (str "Waiting for PostgreSQL at " ++ Entrypoint.DB_HOST w
                                     ++ str ":" ++ Entrypoint.DB_PORT w ++ str "...")
                    :: concat (replicate n [Entrypoint.Probe; Entrypoint.Sleep])
                    ++ [Entrypoint.Probe; Entrypoint.Echo (str "PostgreSQL is up!");
                        Entrypoint.Migrate]
                    ++ (if Entrypoint.migrate w =? 0 then [Entrypoint.Runserver] else []) /\
                code = (if Entrypoint.migrate w =? 0 then Entrypoint.runserver w
                        else Entrypoint.migrate w)
  | None => forall k, (k < fuel)%nat -> Entrypoint.nc w k = false
  end.
Proof.
  unfold Entrypoint.entrypoint.
  destruct (Entrypoint.until_loop w 0 fuel) as [cs|] eqn:Hloop; cbn [mbind option_bind].
  - destruct (until_loop_Some w _ _ _ Hloop) as (n & Hn & Hup & Hdown & ->).
    destruct (Entrypoint.migrate w =? 0); exists n;
      (split; [exact Hn|]); (split; [exact Hup|]); (split; [exact Hdown|]);
      split; try reflexivity; cbn [app]; rewrite <- ?app_assoc; cbn [app];
      rewrite ?app_nil_r; reflexivity.
  - apply (until_loop_None w fuel 0 Hloop).
Qed.

Example entrypoint_slow_database :
  Entrypoint.entrypoint slow_database 10
  = Some ([Entrypoint.Echo (str "Waiting for PostgreSQL at db:5432...");
           Entrypoint.Probe; Entrypoint.Sleep; Entrypoint.Probe; Entrypoint.Sleep;
           Entrypoint.Probe; Entrypoint.Sleep; Entrypoint.Probe;
           Entrypoint.Echo (str "PostgreSQL is up!"); Entrypoint.Migrate], 1).
Proof. reflexivity. Qed.

Lemma entrypoint_order_witness :
  exists n, (n < 10)%nat /\ Entrypoint.nc slow_database n = true /\
            forall j, (j < n)%nat -> Entrypoint.nc slow_database j = false.
Proof.
  pose proof (entrypoint_order slow_database 10) as H.
  rewrite entrypoint_slow_database in H.
  destruct H as (n & Hn & Hup & Hdown & _).
  exists n. split; [exact Hn|]. split; [exact Hup | exact Hdown].
Defined.

(** * Batches of mixed files, and what a reload shows *)

(** X22. Files that are no images are skipped without a word: when a batch
    holds at least one image, its images are within the limit and can be
    read, the records of the images are prepended, numbered in their own
    order, the sequence is cut to 30 and no error is set. *)
Theorem addFiles_skips_other_files env fileList urls st :
  images_of fileList <> [] ->
  within Local.MAX_IMAGE_BYTES (images_of fileList) ->
  Forall2 (fun f url => Local.readFileAsDataURL f = Ok url) (images_of fileList) urls ->
  let st' := Local.addFiles env fileList st in
  Local.photos st' = take 30 (new_records env (images_of fileList) urls ++ Local.photos st) /\
  Local.error st' = None.
Proof.
  intros Hne Hsize Hread. cbv zeta.
  destruct (addFiles_cases env fileList st)
    as [[Hnil _] | [(tooBig & Hfind & _) | [(_ & _ & [e He] & _) | (_ & _ & next & Hnext & Hphotos & Herror & _)]]].
  - contradiction.
  - rewrite (find_within _ _ Hsize) in Hfind. discriminate.
  - rewrite (read_files_ok env _ urls 0 Hread) in He. discriminate.
  - rewrite (read_files_ok env _ urls 0 Hread) in Hnext. injection Hnext as <-.
    split; [exact Hphotos | exact Herror].
Qed.

Lemma addFiles_skips_other_files_witness :
  Local.photos (Local.addFiles sample_browser (Some [text_file; sample_file; text_file])
                  Local.initial)
  = [record_of sample_browser 0 sample_file sample_url].
Proof.
  destruct (addFiles_skips_other_files sample_browser
              (Some [text_file; sample_file; text_file]) [sample_url] Local.initial)
    as (Hphotos & _).
  - vm_compute. discriminate.
  - repeat constructor. vm_compute. discriminate.
  - repeat constructor.
  - rewrite Hphotos. reflexivity.
Defined.

Lemma new_records_exact env files urls :
  Forall (fun f => 0 <= file_size f <= Local.MAX_IMAGE_BYTES) files ->
  (forall k, (k < length files)%nat -> isSafeInteger (Local.Date_now env k) = true) ->
  Forall exact_numbers (new_records env files urls).
Proof.
  intros Hsize Hclock. apply Forall_forall. intros p Hp.
  destruct (list_elem_of_lookup_1 _ _ Hp) as [k Hk].
  unfold new_records in Hk. rewrite list_lookup_imap in Hk.
  destruct (zip files urls !! k) as [[f url]|] eqn:Hzip; [|discriminate].
  injection Hk as <-. cbn [fst snd].
  rewrite lookup_zip_with in Hzip.
  destruct (files !! k) as [f'|] eqn:Hf; [|discriminate].
  destruct (urls !! k); [|discriminate]. injection Hzip as -> ->.
  split; cbn [record_of Local.size Local.createdAt].
  - rewrite Forall_forall in Hsize.
    specialize (Hsize f (list_elem_of_lookup_2 _ _ _ Hf)).
    unfold isSafeInteger. apply Z.leb_le. unfold Local.MAX_IMAGE_BYTES in Hsize.
    change (2 ^ 53 - 1) with 9007199254740991. lia.
  - apply Hclock. apply lookup_lt_Some in Hf. exact Hf.
Qed.

(** X23. What is added survives a reload. The sequence holds records whose
    sizes and timestamps are integers below 2^53 in magnitude; a batch of
    readable images within the limit is added, with sizes that are not
    negative and a clock that stays below 2^53; the storage accepts the save
    that follows. Then a load from that storage shows the sequence the batch
    produced, as the run-time holds it and at the declared type. *)
Theorem added_photos_survive_reload env fileList urls st ls ls' :
  Forall exact_numbers (Local.photos st) ->
  images_of fileList <> [] ->
  Forall (fun f => 0 <= file_size f <= Local.MAX_IMAGE_BYTES) (images_of fileList) ->
  (forall k, (k < length (images_of fileList))%nat ->
             isSafeInteger (Local.Date_now env k) = true) ->
  Forall2 (fun f url => Local.readFileAsDataURL f = Ok url) (images_of fileList) urls ->
  setItem ls Local.STORAGE_KEY
    (Local.JSON_stringify (Local.photos (Local.addFiles env fileList st))) = Ok ls' ->
  Local.saveEffect (Local.addFiles env fileList st) ls = ls' /\
  Local.values (Local.loadEffect ls' Local.initial)
  = PhotoItem_value <$> take 30 (new_records env (images_of fileList) urls ++ Local.photos st) /\
  Local.photos <$> Local.typed (Local.loadEffect ls' Local.initial)
  = Some (take 30 (new_records env (images_of fileList) urls ++ Local.photos st)).
Proof.
  intros Hst Hne Hsize Hclock Hread Hset.
  assert (Hwithin : within Local.MAX_IMAGE_BYTES (images_of fileList)).
  { eapply Forall_impl; [exact Hsize|]. intros f Hf. apply Hf. }
  assert (Hphotos : Local.photos (Local.addFiles env fileList st)
                    = take 30 (new_records env (images_of fileList) urls ++ Local.photos st)).
  { destruct (addFiles_cases env fileList st)
      as [[Hnil _] | [(tooBig & Hfind & _) | [(_ & _ & [e He] & _) | (_ & _ & next & Hnext & Hp & _)]]].
    - contradiction.
    - rewrite (find_within _ _ Hwithin) in Hfind. discriminate.
    - rewrite (read_files_ok env _ urls 0 Hread) in He. discriminate.
    - rewrite (read_files_ok env _ urls 0 Hread) in Hnext. injection Hnext as <-.
      exact Hp. }
  split; [unfold Local.saveEffect; rewrite Hset; reflexivity|].
  rewrite Hphotos in Hset.
  apply setItem_Ok in Hset as (items & quota & -> & ->).
  assert (Hexact : Forall exact_numbers
                     (take 30 (new_records env (images_of fileList) urls ++ Local.photos st))).
  { apply Forall_take_app; [|exact Hst]. apply new_records_exact; assumption. }
  rewrite (loadEffect_stored _ quota _ Local.initial (lookup_insert_eq _ _ _) Hexact).
  split; [reflexivity|].
  rewrite (typed_runtime (Local.setPhotos _ Local.initial) Hexact). reflexivity.
Qed.

Lemma added_photos_survive_reload_witness :
  Local.photos <$>
    Local.typed
      (Local.loadEffect
         (Local.saveEffect (Local.addFiles sample_browser (Some [sample_file]) Local.initial)
            (Open ∅ 1000))
         Local.initial)
  = Some [record_of sample_browser 0 sample_file sample_url].
Proof.
  destruct (added_photos_survive_reload sample_browser (Some [sample_file]) [sample_url]
              Local.initial (Open ∅ 1000)
              (Open {[ Local.STORAGE_KEY :=
                         Local.JSON_stringify
                           (Local.photos
                              (Local.addFiles sample_browser (Some [sample_file])
                                 Local.initial)) ]} 1000))
    as (Hsave & _ & Hload).
  - constructor.
  - vm_compute. discriminate.
  - repeat constructor; vm_compute; discriminate.
  - intros k Hk. change (length (images_of (Some [sample_file]))) with 1%nat in Hk.
    destruct k; [reflexivity | lia].
  - repeat constructor.
  - vm_compute. reflexivity.
  - rewrite Hsave. exact Hload.
Defined.
